(** * Uniswap V2 Zapper bot: transaction preparation and position accounting

    A shallow embedding of the bot's core (gas price resolver, price-impact
    slippage engine, TTL cache and position ledger) together with the
    properties its specification states about them.

    Conventions of the embedding.
    - A JavaScript [BigInt] is a [Z]; BigInt division truncates toward zero
      ([Z.quot]) and throws a [RangeError] on a zero divisor.
    - A JavaScript [Number] that holds a price, a fee in gwei or a share
      is the rational it denotes ([Q]), with [NaN] added where the code
      parses text coming from the network; the properties stated of these
      are bounds and orders, which the monotone rounding of doubles keeps.
    - The amounts and market caps of the position ledger, whose values the
      merge of a repeat entry computes and stores, are IEEE 754 doubles
      ([F64.t], the binary64 instance of [SpecFloat]), rounded as
      JavaScript rounds them.
    - An [async] function that may throw is a function into [result], and
      the state it touches (console, cache, [positions.json]) is passed
      explicitly through the monad [M]. *)

From Stdlib Require Import ZArith QArith Qminmax Qround Qabs Lia Lqa.
From Stdlib Require Import SpecFloat.
From stdpp Require Import gmap strings list.

Local Open Scope Z_scope.

(** ** Exceptions and results *)

Inductive Exn : Type :=
  | RangeError                (* BigInt division by zero *)
  | NumericFault              (* ethers: value is not a decimal of the unit *)
  | Error (message : string). (* [new Error(message)] and rejected I/O *)

Inductive result (A : Type) : Type :=
  | Ok (a : A)
  | Throw (e : Exn).
Arguments Ok {A} a.
Arguments Throw {A} e.

(** ** BigInt arithmetic *)

Module BigInt.

(** [a / b] on BigInts. *)
Definition div (a b : Z) : result Z :=
  if b =? 0 then Throw RangeError else Ok (Z.quot a b).

(** [Number(x)] for a BigInt [x]. *)
Definition toNumber (x : Z) : Q := inject_Z x.

End BigInt.

(** ** Configuration ([CONSTANTS]) *)

(** The branch the [switch] on [GAS_SPEED.toLowerCase()] takes. *)
Inductive GasSpeed : Type := safe | standard | fast | instant | unrecognised.

Record Config : Type := {
  SLIPPAGE_BPS : Z;
  CACHE_DURATION_SECONDS : Z;
  ENABLE_DYNAMIC_SLIPPAGE : bool;
  MIN_SLIPPAGE_BPS : Z;
  MAX_SLIPPAGE_BPS : Z;
  GAS_SPEED : GasSpeed;
  GAS_SPEED_MULTIPLIER : Q;
  PRIORITY_FEE_GWEI : Q;
  MAX_GAS_PRICE_GWEI : Q;
  DEFAULT_GAS_PRICE_GWEI : Q
}.

(** The values [CONSTANTS] takes when the environment sets none of them,
    except that dynamic slippage is a parameter. *)
Definition default_config (dynamic : bool) : Config := {|
  SLIPPAGE_BPS := 2000;
  CACHE_DURATION_SECONDS := 10;
  ENABLE_DYNAMIC_SLIPPAGE := dynamic;
  MIN_SLIPPAGE_BPS := 50;
  MAX_SLIPPAGE_BPS := 5000;
  GAS_SPEED := fast;
  GAS_SPEED_MULTIPLIER := 1;
  PRIORITY_FEE_GWEI := 2;
  MAX_GAS_PRICE_GWEI := 200;
  DEFAULT_GAS_PRICE_GWEI := 30
|}.

(** Configurations that differ from the defaults in one variable of the
    environment. *)
Definition with_MIN_SLIPPAGE_BPS (bps : Z) (cfg : Config) : Config := {|
  SLIPPAGE_BPS := SLIPPAGE_BPS cfg;
  CACHE_DURATION_SECONDS := CACHE_DURATION_SECONDS cfg;
  ENABLE_DYNAMIC_SLIPPAGE := ENABLE_DYNAMIC_SLIPPAGE cfg;
  MIN_SLIPPAGE_BPS := bps;
  MAX_SLIPPAGE_BPS := MAX_SLIPPAGE_BPS cfg;
  GAS_SPEED := GAS_SPEED cfg;
  GAS_SPEED_MULTIPLIER := GAS_SPEED_MULTIPLIER cfg;
  PRIORITY_FEE_GWEI := PRIORITY_FEE_GWEI cfg;
  MAX_GAS_PRICE_GWEI := MAX_GAS_PRICE_GWEI cfg;
  DEFAULT_GAS_PRICE_GWEI := DEFAULT_GAS_PRICE_GWEI cfg
|}.

Definition with_PRIORITY_FEE_GWEI (fee : Q) (cfg : Config) : Config := {|
  SLIPPAGE_BPS := SLIPPAGE_BPS cfg;
  CACHE_DURATION_SECONDS := CACHE_DURATION_SECONDS cfg;
  ENABLE_DYNAMIC_SLIPPAGE := ENABLE_DYNAMIC_SLIPPAGE cfg;
  MIN_SLIPPAGE_BPS := MIN_SLIPPAGE_BPS cfg;
  MAX_SLIPPAGE_BPS := MAX_SLIPPAGE_BPS cfg;
  GAS_SPEED := GAS_SPEED cfg;
  GAS_SPEED_MULTIPLIER := GAS_SPEED_MULTIPLIER cfg;
  PRIORITY_FEE_GWEI := fee;
  MAX_GAS_PRICE_GWEI := MAX_GAS_PRICE_GWEI cfg;
  DEFAULT_GAS_PRICE_GWEI := DEFAULT_GAS_PRICE_GWEI cfg
|}.

(** ** Price-impact slippage engine *)

Definition calculateAmountOut (amountIn reserveIn reserveOut : Z) : result Z :=
  if amountIn =? 0 then Ok 0
  else
    let amountInWithFee := amountIn * 997 in
    let numerator := amountInWithFee * reserveOut in
    let denominator := reserveIn * 1000 + amountInWithFee in
    BigInt.div numerator denominator.

Definition calculatePriceImpact (amountIn reserveIn reserveOut : Z) : result Q :=
  if (amountIn =? 0) || (reserveIn =? 0) || (reserveOut =? 0) then Ok 0%Q
  else
    let amountInWithFee := amountIn * 997 in
    let numerator := amountInWithFee * reserveOut in
    let denominator := reserveIn * 1000 + amountInWithFee in
    match BigInt.div numerator denominator with
    | Throw e => Throw e
    | Ok amountOut =>
        let priceBefore :=
          (BigInt.toNumber reserveOut / BigInt.toNumber reserveIn)%Q in
        let priceAfter :=
          (BigInt.toNumber (reserveOut - amountOut)
             / BigInt.toNumber (reserveIn + amountIn))%Q in
        Ok (Qabs ((priceAfter - priceBefore) / priceBefore) * 100)%Q
    end.

(** [x < y] on Numbers. *)
Definition Qltb (x y : Q) : bool := negb (Qle_bool y x).

(** The chain of [if]s of [calculateDynamicSlippage] that maps a price
    impact (in percent) to a tolerance (in basis points). *)
Definition slippageBands (cfg : Config) (priceImpact : Q) : Z :=
  if Qltb priceImpact (1 # 2) then MIN_SLIPPAGE_BPS cfg
  else if Qltb priceImpact 2 then 100
  else if Qltb priceImpact 5 then 200
  else if Qltb priceImpact 10 then 500
  else Z.min (MAX_SLIPPAGE_BPS cfg) (Qceiling (priceImpact * 100)).

Definition calculateDynamicSlippage (cfg : Config)
    (reserveIn reserveOut amountIn : Z) : result Z :=
  if negb (ENABLE_DYNAMIC_SLIPPAGE cfg) then Ok (SLIPPAGE_BPS cfg)
  else
    match calculatePriceImpact amountIn reserveIn reserveOut with
    | Throw e => Throw e
    | Ok priceImpact => Ok (slippageBands cfg priceImpact)
    end.


(** ** Console, state and exceptions: the monad of the [async] functions *)

Inductive Level : Type := info | warn | error.

Inductive Event : Type :=
  | CacheMiss (key : string)
  | FetchFailed (key : string) (e : Exn)
  | CacheStale (key : string)
  | PositionsLoaded (n : nat)
  | PositionsNotFound
  | PositionsSaved (n : nat)
  | PositionsSaveFailed (e : Exn)
  | GasFromEtherscan (maxFee priority : Z)
  | EtherscanFailed (e : Exn)
  | FetchingFromRPC
  | GasFromRPC (maxFee priority : Z)
  | RPCFailed (e : Exn)
  | UsingDefaultGas (gwei : Q)
  | ZapOutConfirmed (percentage : Z)
  | ZapOutError (e : Exn).

Definition LogEntry : Type := Level * Event.

(** A state that holds the console. *)
Class Console (S : Type) : Type := console_write : LogEntry -> S -> S.

#[global] Instance console_lines : Console (list LogEntry) :=
  fun entry lines => lines ++ [entry].

Definition M (S A : Type) : Type := S -> result A * S.

Definition ret {S A} (a : A) : M S A := fun s => (Ok a, s).

Definition throw {S A} (e : Exn) : M S A := fun s => (Throw e, s).

Definition bind {S A B} (m : M S A) (k : A -> M S B) : M S B :=
  fun s =>
    match m s with
    | (Ok a, s') => k a s'
    | (Throw e, s') => (Throw e, s')
    end.

(** [try { m } catch (error) { handler error }] *)
Definition try_catch {S A} (m : M S A) (handler : Exn -> M S A) : M S A :=
  fun s =>
    match m s with
    | (Ok a, s') => (Ok a, s')
    | (Throw e, s') => handler e s'
    end.

Definition lift {S A} (r : result A) : M S A := fun s => (r, s).

Definition gets {S A} (f : S -> A) : M S A := fun s => (Ok (f s), s).

Definition modify {S} (f : S -> S) : M S unit := fun s => (Ok tt, f s).

Definition log {S} `{Console S} (level : Level) (event : Event) : M S unit :=
  modify (console_write (level, event)).

Declare Scope async_scope.
Delimit Scope async_scope with async.
Notation "x <- m ;; k" := (bind m (fun x => k))
  (at level 100, m at next level, right associativity) : async_scope.
Notation "m ;; k" := (bind m (fun _ => k))
  (at level 100, right associativity) : async_scope.
Local Open Scope async_scope.

(** ** Numbers parsed from text, and ethers' [parseUnits] into wei *)

Inductive Number : Type :=
  | Fin (q : Q)
  | NaN.

Module Num.

Definition mul (x y : Number) : Number :=
  match x, y with Fin a, Fin b => Fin (a * b) | _, _ => NaN end.

Definition sub (x y : Number) : Number :=
  match x, y with Fin a, Fin b => Fin (a - b) | _, _ => NaN end.

(** [Math.max] and [Math.min]: [NaN] as soon as one argument is. *)
Definition max (x y : Number) : Number :=
  match x, y with Fin a, Fin b => Fin (Qmax a b) | _, _ => NaN end.

Definition min (x y : Number) : Number :=
  match x, y with Fin a, Fin b => Fin (Qmin a b) | _, _ => NaN end.

End Num.

Definition gwei : Q := 1000000000.

(** ** Doubles *)

(** JavaScript's [Number] as the binary64 format of IEEE 754: 53 bits of
    precision, round to nearest with ties to even. *)
Module F64.

Definition t : Type := spec_float.

Definition prec : Z := 53.
Definition emax : Z := 1024.

Definition add : t -> t -> t := SFadd prec emax.
Definition mul : t -> t -> t := SFmul prec emax.
Definition div : t -> t -> t := SFdiv prec emax.

Definition zero : t := S754_zero false.

Definition isNaN (x : t) : bool :=
  match x with S754_nan => true | _ => false end.

(** [x <= y] and [x < y]: false as soon as one side is [NaN]. *)
Definition leb : t -> t -> bool := SFleb.
Definition ltb : t -> t -> bool := SFltb.

(** The double of an integer. *)
Definition ofZ (z : Z) : t := binary_normalize prec emax z 0 false.

(** The double nearest to a rational: what [parseFloat] makes of a decimal
    text that denotes it.  It is the quotient of numerator and denominator
    as [SFdiv] rounds it. *)
Definition ofQ (q : Q) : t :=
  match Qnum q with
  | Z0 => zero
  | Zpos n => div (S754_finite false n 0) (S754_finite false (Qden q) 0)
  | Zneg n => div (S754_finite true n 0) (S754_finite false (Qden q) 0)
  end.

(** [parseFloat(x.toString())]: [toString] prints the shortest decimal that
    reads back as [x], and prints the negative zero as ["0"]. *)
Definition reread (x : t) : t :=
  match x with
  | S754_zero _ => zero
  | _ => x
  end.



End F64.

(** Above this magnitude [toString] and [toFixed] print an exponent. *)
Definition exponent_above : Q := inject_Z (10 ^ 21).

(** [x.toFixed(9)] read back as an integer number of wei: the nearest
    multiple of 1e-9, a tie going away from zero. *)
Definition toFixed9 (x : Q) : Z :=
  if Qle_bool 0 x then Qfloor (x * gwei + (1 # 2))
  else - Qfloor (- x * gwei + (1 # 2)).

(** [parseUnits(x.toFixed(9), 'gwei')].  ["NaN"] and a number printed with
    an exponent are no decimal strings, and [parseUnits] throws on them. *)
Definition parseUnits_toFixed9 (x : Number) : result Z :=
  match x with
  | NaN => Throw NumericFault
  | Fin q =>
      if Qle_bool exponent_above (Qabs q) then Throw NumericFault
      else Ok (toFixed9 q)
  end.

(** [parseUnits(x.toString(), 'gwei')] for a configured constant [x].
    [toString] prints the shortest decimal, with an exponent below 1e-6
    and from 1e21 on; [parseUnits] throws on an exponent and on more than
    nine fractional digits. *)
Definition parseUnits_toString (x : Q) : result Z :=
  if negb (Qeq_bool x 0)
     && (Qltb (Qabs x) (1 # 1000000) || Qle_bool exponent_above (Qabs x))
  then Throw NumericFault
  else
    let wei := (x * gwei)%Q in
    if Qeq_bool (inject_Z (Qfloor wei)) wei then Ok (Qfloor wei)
    else Throw NumericFault.

(** ** Gas price resolver *)

Record TxOptions : Type := {
  gasPrice : Z;
  maxFeePerGas : Z;
  maxPriorityFeePerGas : Z
}.

(** What the Etherscan gas oracle request comes back with. *)
Inductive EtherscanReply : Type :=
  | FetchRejected (e : Exn)
  | HttpNotOk (status : Z)
  | ApiStatusNot1 (message : string)
  | GasOracle (SafeGasPrice ProposeGasPrice FastGasPrice suggestBaseFee : Number).

Module FeeData.
(** [provider.getFeeData()]: each fee is a BigInt or [null]. *)
Record t : Type := {
  maxFeePerGas : option Z;
  maxPriorityFeePerGas : option Z
}.
End FeeData.

Inductive RpcReply : Type :=
  | RpcRejected (e : Exn)
  | RpcFeeData (feeData : FeeData.t).

(** Truthiness of a BigInt-or-null: [null] and [0n] are falsy. *)
Definition truthy (x : option Z) : option Z :=
  match x with
  | Some v => if v =? 0 then None else Some v
  | None => None
  end.

Section GasPriceResolver.

Context {S : Type} `{Console S}.
Variable cfg : Config.

Definition fetchTxOptionsFromEtherscan (reply : EtherscanReply) : M S TxOptions :=
  match reply with
  | FetchRejected e => throw e
  | HttpNotOk status => throw (Error "HTTP error! status")
  | ApiStatusNot1 message => throw (Error "Etherscan API error")
  | GasOracle safeGasPriceGwei proposeGasPriceGwei fastGasPriceGwei baseFeeGwei =>
      let selectedGasPriceGwei :=
        match GAS_SPEED cfg with
        | safe => safeGasPriceGwei
        | standard => proposeGasPriceGwei
        | fast => fastGasPriceGwei
        | instant => Num.mul fastGasPriceGwei (Fin (12 # 10))
        | unrecognised => fastGasPriceGwei
        end in
      let selectedGasPriceGwei :=
        Num.mul selectedGasPriceGwei (Fin (GAS_SPEED_MULTIPLIER cfg)) in
      let rawPriorityFeeGwei :=
        Num.max (Fin (PRIORITY_FEE_GWEI cfg))
                (Num.sub selectedGasPriceGwei baseFeeGwei) in
      let cappedMaxFeeGwei :=
        Num.min selectedGasPriceGwei (Fin (MAX_GAS_PRICE_GWEI cfg)) in
      let priorityFeeGwei := Num.min rawPriorityFeeGwei cappedMaxFeeGwei in
      maxFeePerGas <- lift (parseUnits_toFixed9 cappedMaxFeeGwei) ;;
      maxPriorityFeePerGas <- lift (parseUnits_toFixed9 priorityFeeGwei) ;;
      log info (GasFromEtherscan maxFeePerGas maxPriorityFeePerGas) ;;
      ret {| gasPrice := maxFeePerGas;
             maxFeePerGas := maxFeePerGas;
             maxPriorityFeePerGas := maxPriorityFeePerGas |}
  end.

Definition fetchTxOptionsFromRPC (reply : RpcReply) : M S TxOptions :=
  log info FetchingFromRPC ;;
  feeData <- match reply with
             | RpcRejected e => throw e
             | RpcFeeData feeData => ret feeData
             end ;;
  match truthy (FeeData.maxFeePerGas feeData) with
  | None => throw (Error "Could not fetch gas price from RPC")
  | Some feeMax =>
      maxGasPrice <- lift (parseUnits_toString (MAX_GAS_PRICE_GWEI cfg)) ;;
      let maxFeePerGas := if feeMax >? maxGasPrice then maxGasPrice else feeMax in
      maxPriorityFeePerGas <-
        match truthy (FeeData.maxPriorityFeePerGas feeData) with
        | Some p => ret p
        | None => lift (parseUnits_toString (PRIORITY_FEE_GWEI cfg))
        end ;;
      let maxPriorityFeePerGas :=
        if maxPriorityFeePerGas >? maxFeePerGas then maxFeePerGas
        else maxPriorityFeePerGas in
      log info (GasFromRPC maxFeePerGas maxPriorityFeePerGas) ;;
      ret {| gasPrice := maxFeePerGas;
             maxFeePerGas := maxFeePerGas;
             maxPriorityFeePerGas := maxPriorityFeePerGas |}
  end.

(** The static default tier: the last statements of [fetchTxOptions],
    outside of any [try]. *)
Definition defaultTxOptions : M S TxOptions :=
  defaultGasPrice <- lift (parseUnits_toString (DEFAULT_GAS_PRICE_GWEI cfg)) ;;
  defaultPriorityFee <- lift (parseUnits_toString (PRIORITY_FEE_GWEI cfg)) ;;
  log info (UsingDefaultGas (DEFAULT_GAS_PRICE_GWEI cfg)) ;;
  ret {| gasPrice := defaultGasPrice;
         maxFeePerGas := defaultGasPrice;
         maxPriorityFeePerGas := defaultPriorityFee |}.

(** [try { return await tier } catch (error) { log(...) }]: [Some] when
    the tier returned, [None] when control falls through the [catch]. *)
Definition attempt (tier : M S TxOptions) (failed : Exn -> Event)
    : M S (option TxOptions) :=
  try_catch (quote <- tier ;; ret (Some quote))
            (fun e => log warn (failed e) ;; ret None).

Definition fetchTxOptions (etherscan : EtherscanReply) (rpc : RpcReply)
    : M S TxOptions :=
  first <- attempt (fetchTxOptionsFromEtherscan etherscan) EtherscanFailed ;;
  match first with
  | Some quote => ret quote
  | None =>
      second <- attempt (fetchTxOptionsFromRPC rpc) RPCFailed ;;
      match second with
      | Some quote => ret quote
      | None => defaultTxOptions
      end
  end.

End GasPriceResolver.


(** ** TTL cache *)

Module Cache.

Section GetCachedData.

(** [V]: the cached data.  [W]: the world a fetcher acts on (network,
    chain, console); fetchers do not touch [apiCache]. *)
Context {V W : Type} `{Console W}.

Record Item : Type := { data : V; timestamp : Z }.

Record State : Type := {
  apiCache : gmap string Item;
  world : W
}.

#[global] Instance console_state : Console State :=
  fun entry st =>
    {| apiCache := apiCache st; world := console_write entry (world st) |}.

(** [await fetcherFunction(...args)] *)
Definition await (fetcherFunction : M W V) : M State V :=
  fun st =>
    let (r, w) := fetcherFunction (world st) in
    (r, {| apiCache := apiCache st; world := w |}).

(** [apiCache.set(key, item)] *)
Definition set (key : string) (item : Item) : M State unit :=
  modify (fun st =>
    {| apiCache := <[key := item]> (apiCache st); world := world st |}).

(** [cachedItem && (now - cachedItem.timestamp) < CACHE_DURATION_SECONDS * 1000] *)
Definition fresh (cfg : Config) (now : Z) (cachedItem : option Item) : bool :=
  match cachedItem with
  | Some item => now - timestamp item <? CACHE_DURATION_SECONDS cfg * 1000
  | None => false
  end.

Definition getCachedData (cfg : Config) (now : Z) (key : string)
    (fetcherFunction : M W V) : M State V :=
  cachedItem <- gets (fun st => apiCache st !! key) ;;
  match (if fresh cfg now cachedItem then cachedItem else None) with
  | Some item => ret (data item)
  | None =>
      log info (CacheMiss key) ;;
      try_catch
        (fetched <- await fetcherFunction ;;
         set key {| data := fetched; timestamp := now |} ;;
         ret fetched)
        (fun e =>
           log error (FetchFailed key e) ;;
           match cachedItem with
           | Some item => log warn (CacheStale key) ;; ret (data item)
           | None => throw e
           end)
  end.

(** The world in which the fetcher starts: the miss has been logged. *)
Definition missed (key : string) (st : State) : W :=
  console_write (info, CacheMiss key) (world st).

(** A fetcher that throws whatever the state of the world. *)
Definition always_fails (fetcherFunction : M W V) : Prop :=
  forall w, exists e w', fetcherFunction w = (Throw e, w').

(** A run of calls for one key: the clock and the fetcher of each. *)
Fixpoint calls (cfg : Config) (key : string)
    (script : list (Z * M W V)) (st : State) : list (result V) * State :=
  match script with
  | [] => ([], st)
  | (now, fetcherFunction) :: rest =>
      let (r, st') := getCachedData cfg now key fetcherFunction st in
      let (rs, st'') := calls cfg key rest st' in
      (r :: rs, st'')
  end.

End GetCachedData.

Arguments Item : clear implicits.
Arguments State : clear implicits.

End Cache.

(** [getCachedTxOptions]: the resolver behind the cache, under the key
    ['txOptions']. *)
Definition getCachedTxOptions {W} `{Console W} (cfg : Config) (now : Z)
    (etherscan : EtherscanReply) (rpc : RpcReply)
    : M (Cache.State TxOptions W) TxOptions :=
  Cache.getCachedData cfg now "txOptions" (fetchTxOptions cfg etherscan rpc).

(** ** Position ledger *)

Module Ledger.

(** A position of [positions.json].  [initialEthValue] and
    [initialMarketCap] are stored as text and read by [parseFloat] wherever
    they are used: the fields hold the doubles [parseFloat] reads. *)
Record Position : Type := {
  tokenAddress : string;
  pairAddress : string;
  initialEthValue : F64.t;
  initialMarketCap : F64.t;
  timestamp : Z
}.

(** What [getCachedPairInfo] resolves to, as far as the ledger reads it:
    [marketCap] is the double [parseFloat] reads from its text. *)
Record PairInfo : Type := {
  pi_pairAddress : string;
  marketCap : F64.t
}.

(** How far a write that is rejected got.  [fs.writeFile] opens the file
    with truncation and then writes: rejected at the open it leaves the
    file as it was, rejected later it leaves it empty or with a part of
    the text, which is not JSON. *)
Inductive WriteFault : Type := AtOpen | AfterOpen.

(** [positions.json] and the console.  [positionsFile] is [None] when
    the file is missing or unreadable; [writeError] is the error
    [fs.writeFile] rejects with, when it does, and [writeFault] how far
    such a write gets. *)
Record Disk : Type := {
  positionsFile : option (list Position);
  writeError : option Exn;
  writeFault : WriteFault;
  console : list LogEntry
}.

#[global] Instance console_disk : Console Disk :=
  fun entry d =>
    {| positionsFile := positionsFile d;
       writeError := writeError d;
       writeFault := writeFault d;
       console := console d ++ [entry] |}.

Definition loadPositions : M Disk (list Position) :=
  file <- gets positionsFile ;;
  match file with
  | Some positions =>
      log info (PositionsLoaded (length positions)) ;;
      ret positions
  | None =>
      log warn PositionsNotFound ;;
      ret []
  end.

(** What a rejected write leaves of the file. *)
Definition left_by_failed_write (d : Disk) : option (list Position) :=
  match writeFault d with
  | AtOpen => positionsFile d
  | AfterOpen => None
  end.

(** [fs.writeFile(POSITIONS_FILE_PATH, JSON.stringify(positions))] *)
Definition writeFile (positions : list Position) : M Disk unit :=
  fun d =>
    match writeError d with
    | Some e =>
        (Throw e,
         {| positionsFile := left_by_failed_write d;
            writeError := writeError d;
            writeFault := writeFault d;
            console := console d |})
    | None =>
        (Ok tt, {| positionsFile := Some positions;
                   writeError := writeError d;
                   writeFault := writeFault d;
                   console := console d |})
    end.

Definition savePositions (positions : list Position) : M Disk unit :=
  try_catch
    (writeFile positions ;;
     log info (PositionsSaved (length positions)))
    (fun e => log error (PositionsSaveFailed e)).

(** [positions.splice(start, 1)] for an integral [start]. *)
Definition splice1 {A} (start : Z) (l : list A) : list A :=
  let len := Z.of_nat (length l) in
  let actualStart :=
    if start <? 0 then Z.max (len + start) 0 else Z.min start len in
  delete (Z.to_nat actualStart) l.

(** [positions[index]] for an integral [index]. *)
Definition at_index {A} (l : list A) (index : Z) : option A :=
  if index <? 0 then None else l !! Z.to_nat index.

Section Accounting.

(** ethers' [getAddress]: the checksummed form of an address. *)
Variable getAddress : string -> string.

(** [positions.findIndex(p => getAddress(p.tokenAddress) === getAddress(tokenAddress))] *)
Fixpoint findIndex (token : string) (positions : list Position) : option nat :=
  match positions with
  | [] => None
  | p :: rest =>
      if String.eqb (getAddress (tokenAddress p)) (getAddress token) then Some 0%nat
      else option_map Datatypes.S (findIndex token rest)
  end.

(** The identity key of a position: its token address in canonical form. *)
Definition identity (pos : Position) : string := getAddress (tokenAddress pos).

(** The [if (existingIndex > -1)] branch: the fields assigned to [pos].
    The sum, the two products and the quotient are operations on doubles,
    and the two results are stored as [toString] prints them. *)
Definition merge (pos : Position) (ethAmount newMCap : F64.t) (now : Z) : Position :=
  let oldEth := initialEthValue pos in
  let newEth := ethAmount in
  let oldMCap := initialMarketCap pos in
  let totalEth := F64.add oldEth newEth in
  {| tokenAddress := tokenAddress pos;
     pairAddress := pairAddress pos;
     initialEthValue := F64.reread totalEth;
     initialMarketCap :=
       F64.reread
         (F64.div (F64.add (F64.mul oldMCap oldEth) (F64.mul newMCap newEth))
                  totalEth);
     timestamp := now |}.

(** [updateAndSavePosition(tokenAddress, ethAmount)] at time [now];
    [ethAmount] is the double [parseFloat] reads from the text. *)
Definition updateAndSavePosition (now : Z) (getCachedPairInfo : result PairInfo)
    (token : string) (ethAmount : F64.t) : M Disk unit :=
  positions <- loadPositions ;;
  pairInfo <- lift getCachedPairInfo ;;
  match findIndex token positions with
  | Some existingIndex =>
      savePositions
        (alter (fun pos => merge pos ethAmount (marketCap pairInfo) now)
               existingIndex positions)
  | None =>
      savePositions
        (positions ++
           [{| tokenAddress := token;
               pairAddress := pi_pairAddress pairInfo;
               initialEthValue := ethAmount;
               initialMarketCap := marketCap pairInfo;
               timestamp := now |}])
  end.

End Accounting.


(** The ledger side of the [execute_zapout:<percentage>] callback:
    [zapOut] stands for the approval, the gas estimate and the zap-out
    transaction up to its receipt, and the result is the session's
    [positionIndex] after the callback.  The messages to the chat are left
    out here: [ZapOut.execute_zapout] is the callback with them, which
    leaves the file and the index as they were or as this side computes
    them, and is this side when the messages go out. *)
Definition execute_zapout (percentage : Z) (zapOut : result unit)
    (positionIndex : Z) : M Disk Z :=
  positions <- loadPositions ;;
  match at_index positions positionIndex with
  | None => ret positionIndex
  | Some position =>
      try_catch
        (lift zapOut ;;
         log info (ZapOutConfirmed percentage) ;;
         newPositions <- loadPositions ;;
         if percentage =? 100 then
           savePositions (splice1 positionIndex newPositions) ;;
           ret (Z.max 0 (positionIndex - 1))
         else
           savePositions newPositions ;;
           ret positionIndex)
        (fun e => log error (ZapOutError e) ;; ret positionIndex)
  end.

End Ledger.

(** A quote a transaction can be sent with: the priority fee within the
    max fee, and the gas price used for the fee estimate equal to the max
    fee. *)
Definition acceptable (quote : TxOptions) : Prop :=
  maxPriorityFeePerGas quote <= maxFeePerGas quote /\
  gasPrice quote = maxFeePerGas quote.

(** The ledger [loadPositions] reads from a disk. *)
Definition ledger (d : Ledger.Disk) : list Ledger.Position :=
  match Ledger.positionsFile d with
  | Some positions => positions
  | None => []
  end.

(** ** Amounts of a zap-in and of a zap-out *)

(** The [CONSTANTS] the zap handlers read besides those of [Config]. *)
Record ZapSettings : Type := {
  ZAP_IN_GAS_LIMIT_ESTIMATE : Z;
  ZAP_OUT_GAS_LIMIT_BUFFER_PERCENT : Z;
  DEADLINE_MINUTES : Z
}.

Definition default_settings : ZapSettings := {|
  ZAP_IN_GAS_LIMIT_ESTIMATE := 500000;
  ZAP_OUT_GAS_LIMIT_BUFFER_PERCENT := 130;
  DEADLINE_MINUTES := 3
|}.

(** What [executeZapIn] computes from the reserves before it asks for a
    gas quote. *)
Record ZapInAmounts : Type := {
  amountToSwap : Z;
  dynamicSlippageBps : Z;
  expectedAmountToken : Z;
  amountAMin : Z;
  amountBMin : Z
}.

Definition zapInAmounts (cfg : Config) (reserveWETH reserveToken amountIn : Z)
    : result ZapInAmounts :=
  match BigInt.div amountIn 2 with
  | Throw e => Throw e
  | Ok amountToSwap =>
      match calculateDynamicSlippage cfg reserveWETH reserveToken amountToSwap with
      | Throw e => Throw e
      | Ok dynamicSlippageBps =>
          match calculateAmountOut amountToSwap reserveWETH reserveToken with
          | Throw e => Throw e
          | Ok expectedAmountToken =>
              let slippageMultiplier := 10000 - dynamicSlippageBps in
              match BigInt.div (amountToSwap * slippageMultiplier) 10000,
                    BigInt.div (expectedAmountToken * slippageMultiplier) 10000 with
              | Ok amountAMin, Ok amountBMin =>
                  Ok {| amountToSwap := amountToSwap;
                        dynamicSlippageBps := dynamicSlippageBps;
                        expectedAmountToken := expectedAmountToken;
                        amountAMin := amountAMin;
                        amountBMin := amountBMin |}
              | Throw e, _ => Throw e
              | _, Throw e => Throw e
              end
          end
      end
  end.

(** [validateBalance], given what [provider.getBalance] resolved to. *)
Definition validateBalance (balance amountIn estimatedGasFee : Z) : result unit :=
  let totalRequired := amountIn + estimatedGasFee in
  if balance <? totalRequired then Throw (Error "Insufficient ETH")
  else Ok tt.

(** [(lpBalance * BigInt(percentage)) / 100n] of the zap-out callback. *)
Definition liquidityToZap (lpBalance percentage : Z) : result Z :=
  BigInt.div (lpBalance * percentage) 100.

(** ** Navigation between positions *)

Inductive Direction : Type := prev_pos | next_pos.

(** The [prev_pos] / [next_pos] callback: the session's [positionIndex]
    after it, for a ledger of [length] positions.  [%] is the remainder of
    JavaScript, which has the sign of the dividend. *)
Definition navigate (direction : Direction) (length index : Z) : Z :=
  if length =? 0 then index
  else
    match direction with
    | prev_pos => Z.rem (index - 1 + length) length
    | next_pos => Z.rem (index + 1) length
    end.

(** The [show_position] callback: the last position. *)
Definition show_position (length : Z) : Z := length - 1.

(** ** Pair data read from the chain *)

Module Chain.

Definition ZeroAddress : string := "0x0000000000000000000000000000000000000000".

(** ethers' [formatEther]: wei as a decimal number of ether. *)
Definition formatEther (wei : Z) : Q := inject_Z wei / inject_Z (10 ^ 18).

(** What the four parallel reads of [fetchPairInfo] resolve to. *)
Record PairReads : Type := {
  reserves : Z * Z;
  token0 : string;
  tokenTotalSupply : Z;
  tokenDecimals : Z
}.

Record PairInfo : Type := {
  pairAddress : string;
  price : Q;
  marketCap : Q;
  reserveWETH : Z;
  reserveToken : Z
}.

Section FetchPairInfo.

Variable getAddress : string -> string.
Variable WETH_ADDRESS : string.

(** The reserves as (WETH, token), whichever slot WETH has in the pair. *)
Definition orient (reads : PairReads) : Z * Z :=
  if String.eqb (getAddress (token0 reads)) (getAddress WETH_ADDRESS)
  then (fst (reserves reads), snd (reserves reads))
  else (snd (reserves reads), fst (reserves reads)).

(** [fetchPairInfo], from what [factoryContract.getPair] and the four
    parallel reads resolve to.  [price] and [marketCap] are the numbers their
    strings denote; [10n ** tokenDecimals] is a RangeError on a negative
    exponent. *)
Definition fetchPairInfo (getPair : result string) (reads : result PairReads)
    : result PairInfo :=
  match getPair with
  | Throw e => Throw e
  | Ok address =>
      if String.eqb address ZeroAddress
      then Throw (Error "Pair does not exist for this token.")
      else
        match reads with
        | Throw e => Throw e
        | Ok reads =>
            let '(reserveWETH, reserveToken) := orient reads in
            if (reserveToken =? 0) || (reserveWETH =? 0)
            then Ok {| pairAddress := address; price := 0; marketCap := 0;
                       reserveWETH := 0; reserveToken := 0 |}
            else if tokenDecimals reads <? 0
            then Throw RangeError
            else
              match BigInt.div (reserveWETH * 10 ^ tokenDecimals reads) reserveToken,
                    BigInt.div (reserveWETH * tokenTotalSupply reads) reserveToken with
              | Ok priceInWei, Ok marketCapInWei =>
                  Ok {| pairAddress := address;
                        price := formatEther priceInWei;
                        marketCap := formatEther marketCapInWei;
                        reserveWETH := reserveWETH;
                        reserveToken := reserveToken |}
              | Throw e, _ => Throw e
              | _, Throw e => Throw e
              end
        end
  end.

End FetchPairInfo.

End Chain.

(** ** Figures of the position message *)

Module Display.

(** The figures [generatePositionMessage] prints: the value of the LP
    balance in wei, the profit of the market cap in percent, and the share
    of the pool in percent. *)
Record Figures : Type := {
  userLpValueWei : Z;
  mcapProfitPercent : Q;
  userSharePercent : Q
}.

(** The computation of [generatePositionMessage] between its reads and its
    message text, from the WETH reserve of the pair, the LP balance of the
    wallet, the total supply of the pair, and the market caps
    [parseFloat(position.initialMarketCap)] and
    [parseFloat(currentPairInfo.marketCap)]. *)
Definition figures (reserveWETH lpBalance pairTotalSupply : Z)
    (initialMarketCapEth currentMarketCapEth : Q) : result Figures :=
  if pairTotalSupply =? 0 then Throw (Error "Pool has no liquidity.")
  else
    match BigInt.div (reserveWETH * 2 * lpBalance) pairTotalSupply,
          BigInt.div (lpBalance * 10000) pairTotalSupply with
    | Ok valueWei, Ok shareBps =>
        Ok {| userLpValueWei := valueWei;
              mcapProfitPercent :=
                if Qltb 0 initialMarketCapEth
                then ((currentMarketCapEth - initialMarketCapEth)
                      / initialMarketCapEth) * 100
                else 0;
              userSharePercent := BigInt.toNumber shareBps / 100 |}
    | Throw e, _ => Throw e
    | _, Throw e => Throw e
    end.

(** The sign the message puts before the profit: [mcapProfitPercent >= 0]. *)
Definition shownAsGain (f : Figures) : bool := Qle_bool 0 (mcapProfitPercent f).

End Display.

(** ** ETH price *)

Inductive EthPriceReply : Type :=
  | PriceRejected (e : Exn)
  | PriceHttpNotOk (status : Z)
  | PriceApiStatusNot1 (message : string)
  | EthPrice (ethusd : Number).

(** [fetchEthPriceInUsd]: every failure is caught and answered by 0.  (Its
    two log lines are left out.) *)
Definition fetchEthPriceInUsd (reply : EthPriceReply) : Number :=
  match reply with
  | EthPrice ethPrice => ethPrice
  | PriceRejected _ | PriceHttpNotOk _ | PriceApiStatusNot1 _ => Fin 0
  end.

(** [getCachedEthPriceInUsd]: the price behind the cache, under the key
    ['ethPrice']. *)
Definition getCachedEthPriceInUsd {W} `{Console W} (cfg : Config) (now : Z)
    (reply : EthPriceReply) : M (Cache.State Number W) Number :=
  Cache.getCachedData cfg now "ethPrice" (ret (fetchEthPriceInUsd reply)).

(** ** Refresh watchers *)

Module Watcher.

(** [activeWatchers], the intervals that are running, and the handle the
    next [setInterval] returns. *)
Record Timers : Type := {
  activeWatchers : gmap Z nat;
  running : gset nat;
  nextHandle : nat
}.

Definition setInterval (t : Timers) : nat * Timers :=
  (nextHandle t,
   {| activeWatchers := activeWatchers t;
      running := {[nextHandle t]} ∪ running t;
      nextHandle := Datatypes.S (nextHandle t) |}).

Definition clearInterval (handle : nat) (t : Timers) : Timers :=
  {| activeWatchers := activeWatchers t;
     running := running t ∖ {[handle]};
     nextHandle := nextHandle t |}.

Definition stopWatcher (chatId : Z) (t : Timers) : Timers :=
  match activeWatchers t !! chatId with
  | Some handle =>
      let t' := clearInterval handle t in
      {| activeWatchers := delete chatId (activeWatchers t');
         running := running t';
         nextHandle := nextHandle t' |}
  | None => t
  end.

(** [activeWatchers.set(chatId, setInterval(update, ...))] *)
Definition startWatcher (chatId : Z) (t : Timers) : Timers :=
  let (handle, t') := setInterval t in
  {| activeWatchers := <[chatId := handle]> (activeWatchers t');
     running := running t';
     nextHandle := nextHandle t' |}.

(** What [displayPosition] does to the timers: [found] tells whether
    [positions[index]] exists and [shown] whether the loading message went
    out; the first [update], which catches its errors, comes in between. *)
(** One run of [update] for [chatId]: it stops the watcher when a
    conversation is active in the chat, when the position is gone, or when
    the message to edit is gone; its other errors are caught and logged. *)
Definition update (chatId : Z) (inConversation positionGone messageGone : bool)
    (t : Timers) : Timers :=
  if inConversation || positionGone || messageGone then stopWatcher chatId t
  else t.

(** What [displayPosition] does to the timers, as one step of the bot:
    [found] tells whether [positions[index]] exists and [shown] whether the
    loading message went out; the first [update] is awaited before the
    interval is set. *)
Definition displayPosition (chatId : Z) (found shown : bool)
    (inConversation positionGone messageGone : bool) (t : Timers) : Timers :=
  let t := stopWatcher chatId t in
  if negb found then t
  else if negb shown then t
  else
    let t := update chatId inConversation positionGone messageGone t in
    startWatcher chatId t.

(** Every running interval is the watcher of exactly one chat. *)
Definition consistent (t : Timers) : Prop :=
  (forall handle, handle ∈ running t <->
     exists chatId, activeWatchers t !! chatId = Some handle) /\
  (forall chat1 chat2 handle,
     activeWatchers t !! chat1 = Some handle ->
     activeWatchers t !! chat2 = Some handle -> chat1 = chat2) /\
  (forall handle, handle ∈ running t -> (handle < nextHandle t)%nat).

End Watcher.

(** ** Zap-out *)

Module ZapOut.

(** What the awaited messages of one [execute_zapout] callback to the chat
    come to, in the order of the code: [ctx.answerCallbackQuery()]; the
    message that the position is not found; the one before the [try]; in
    the [try], after the ledger is saved, the reply and the display of the
    positions left; the reply of the [catch] handler. *)
Record Chat : Type := {
  answered : result unit;
  notFoundShown : result unit;
  processingShown : result unit;
  successShown : result unit;
  failureShown : result unit
}.

(** [positions.json] and [ctx.session.positionIndex]. *)
Record Session : Type := {
  disk : Ledger.Disk;
  positionIndex : Z
}.

#[global] Instance console_session : Console Session :=
  fun entry s =>
    {| disk := console_write entry (disk s); positionIndex := positionIndex s |}.

Definition on_disk {A} (m : M Ledger.Disk A) : M Session A :=
  fun s =>
    let (r, d) := m (disk s) in
    (r, {| disk := d; positionIndex := positionIndex s |}).

(** [ctx.session.positionIndex = index] *)
Definition setIndex (index : Z) : M Session unit :=
  modify (fun s => {| disk := disk s; positionIndex := index |}).

(** The [execute_zapout:<percentage>] callback with its messages to the
    chat.  [zapOut] stands for the steps of the [try] up to the receipt of
    the zap-out transaction: the reads, the approval, the gas estimate,
    the two messages in between and the transaction.  (The callback first
    stops the watcher of the chat, which [Watcher.stopWatcher] models; the
    log lines of the ledger side are kept.) *)
Definition execute_zapout (chat : Chat) (percentage : Z) (zapOut : result unit)
    : M Session unit :=
  lift (answered chat) ;;
  positions <- on_disk Ledger.loadPositions ;;
  index <- gets positionIndex ;;
  match Ledger.at_index positions index with
  | None => lift (notFoundShown chat)
  | Some position =>
      lift (processingShown chat) ;;
      try_catch
        (lift zapOut ;;
         log info (ZapOutConfirmed percentage) ;;
         newPositions <- on_disk Ledger.loadPositions ;;
         (if percentage =? 100 then
            setIndex (Z.max 0 (index - 1)) ;;
            on_disk (Ledger.savePositions (Ledger.splice1 index newPositions))
          else
            on_disk (Ledger.savePositions newPositions)) ;;
         lift (successShown chat))
        (fun e => log error (ZapOutError e) ;; lift (failureShown chat))
  end.

End ZapOut.

(** ** Zap-in *)

Module ZapIn.

(** A call of [zapperContract.zapInETH]: its arguments and transaction
    options. *)
Record Call : Type := {
  tokenOther : string;
  call_amountAMin : Z;
  call_amountBMin : Z;
  deadline : Z;
  slippageToleranceBps : Z;
  value : Z;
  call_gasLimit : Z;
  call_maxFeePerGas : Z;
  call_maxPriorityFeePerGas : Z
}.

(** The text of the amount, by what the code reads from it. *)
Record AmountText : Type := {
  asNumber : F64.t;     (* parseFloat(ethAmount) *)
  asWei : result Z      (* parseEther(ethAmount) *)
}.

(** What the awaited messages of one [executeZapIn] to the chat come to,
    in the order of the code: the one of the guard; the one before the
    [try]; in the [try], the one before the call of the contract, the one
    after it, and the one after the position is saved; the one of the
    [catch] handler. *)
Record Chat : Type := {
  invalidShown : result unit;
  preparingShown : result unit;
  sendingShown : result unit;
  sentShown : result unit;
  successShown : result unit;
  failureShown : result unit
}.

(** What the awaited reads of one [executeZapIn] resolve to. *)
Record Reads : Type := {
  pairInfo : result Ledger.PairInfo;         (* getCachedPairInfo *)
  reserves : result (Z * Z);                 (* getReserves, as (WETH, token) *)
  txOptionsData : result TxOptions;          (* getCachedTxOptions *)
  balance : result Z;                        (* provider.getBalance *)
  sent : Call -> result unit;                (* zapperContract.zapInETH *)
  receipt : Call -> result unit;             (* tx.wait *)
  pairInfoAfter : result Ledger.PairInfo     (* getCachedPairInfo, on saving *)
}.

(** [positions.json] and the calls made to the zapper contract. *)
Record World : Type := {
  disk : Ledger.Disk;
  calls : list Call
}.

Definition on_disk {A} (m : M Ledger.Disk A) : M World A :=
  fun w =>
    let (r, d) := m (disk w) in
    (r, {| disk := d; calls := calls w |}).

Definition zapInETH (reads : Reads) (call : Call) : M World unit :=
  fun w => (sent reads call, {| disk := disk w; calls := calls w ++ [call] |}).

(** ethers' [parseEther] of the text of a decimal number: it throws on
    more than eighteen fractional digits. *)
Definition parseEther (x : Q) : result Z :=
  let wei := (x * inject_Z (10 ^ 18))%Q in
  if Qeq_bool (inject_Z (Qfloor wei)) wei then Ok (Qfloor wei)
  else Throw NumericFault.

(** The text of a number in plain decimal notation. *)
Definition decimal (x : Q) : AmountText :=
  {| asNumber := F64.ofQ x; asWei := parseEther x |}.

(** The text of a number in exponent notation, as ['1e-3']: [parseFloat]
    reads it, [parseEther] throws. *)
Definition exponent_notation (x : Q) : AmountText :=
  {| asNumber := F64.ofQ x; asWei := Throw NumericFault |}.

Section ExecuteZapIn.

Variable getAddress : string -> string.
Variable cfg : Config.
Variable settings : ZapSettings.

(** [executeZapIn], entered at time [now] and saving the position at time
    [savedAt].  An empty text reads as [NaN], so that the guard is the one
    on [parseFloat].  The log lines are left out, together with the reads
    of the ETH price and of the token info, which cannot fail. *)
Definition executeZapIn (now savedAt : Z) (chat : Chat) (reads : Reads)
    (tokenAddress : string) (ethAmount : AmountText) : M World unit :=
  if F64.isNaN (asNumber ethAmount) || F64.leb (asNumber ethAmount) F64.zero
  then lift (invalidShown chat)
  else
    amountIn <- lift (asWei ethAmount) ;;
    lift (preparingShown chat) ;;
    try_catch
      (let deadline := now / 1000 + DEADLINE_MINUTES settings * 60 in
       _ <- lift (pairInfo reads) ;;
       oriented <- lift (reserves reads) ;;
       amounts <- lift (zapInAmounts cfg (fst oriented) (snd oriented) amountIn) ;;
       txOptionsData <- lift (txOptionsData reads) ;;
       let estimatedGasFee :=
         ZAP_IN_GAS_LIMIT_ESTIMATE settings * gasPrice txOptionsData in
       balance <- lift (balance reads) ;;
       lift (validateBalance balance amountIn estimatedGasFee) ;;
       let call :=
         {| tokenOther := tokenAddress;
            call_amountAMin := amountAMin amounts;
            call_amountBMin := amountBMin amounts;
            deadline := deadline;
            slippageToleranceBps := dynamicSlippageBps amounts;
            value := amountIn;
            call_gasLimit := ZAP_IN_GAS_LIMIT_ESTIMATE settings;
            call_maxFeePerGas := maxFeePerGas txOptionsData;
            call_maxPriorityFeePerGas := maxPriorityFeePerGas txOptionsData |} in
       lift (sendingShown chat) ;;
       zapInETH reads call ;;
       lift (sentShown chat) ;;
       lift (receipt reads call) ;;
       on_disk (Ledger.updateAndSavePosition getAddress savedAt
                  (pairInfoAfter reads) tokenAddress (asNumber ethAmount)) ;;
       lift (successShown chat))
      (fun e => lift (failureShown chat)).

End ExecuteZapIn.

End ZapIn.

(** ** Runs used below *)

(** Both upstream tiers are down: Etherscan answers 503 and the node call
    is rejected. *)
Definition etherscan_down : EtherscanReply := HttpNotOk 503.
Definition rpc_down : RpcReply := RpcRejected (Error "timeout").

(** [PRIORITY_FEE_GWEI=50] with every other variable at its default. *)
Definition high_priority_config : Config :=
  with_PRIORITY_FEE_GWEI 50 (default_config true).

(** [PRIORITY_FEE_GWEI=2.0000000001], ten fractional digits. *)
Definition fine_priority_config : Config :=
  with_PRIORITY_FEE_GWEI (20000000001 # 10000000000) (default_config true).

(** A ledger holding one position, entered with 1 ETH at a market cap
    of 100, on a disk that accepts writes. *)
Definition tokenA_position : Ledger.Position := {|
  Ledger.tokenAddress := "0xA0b86991c6218b36c1d19D4a2e9Eb0cE3606eB48";
  Ledger.pairAddress := "0xB4e16d0168e52d35CaCD2c6185b44281Ec28C9Dc";
  Ledger.initialEthValue := F64.ofZ 1;
  Ledger.initialMarketCap := F64.ofZ 100;
  Ledger.timestamp := 1700000000000
|}.

Definition tokenA_ledger : Ledger.Disk := {|
  Ledger.positionsFile := Some [tokenA_position];
  Ledger.writeError := None;
  Ledger.writeFault := Ledger.AtOpen;
  Ledger.console := []
|}.

(** A second position, and the ledger holding both. *)
Definition tokenB_position : Ledger.Position := {|
  Ledger.tokenAddress := "0x6B175474E89094C44Da98b954EedeAC495271d0F";
  Ledger.pairAddress := "0xA478c2975Ab1Ea89e8196811F51A7B7Ade33eB11";
  Ledger.initialEthValue := F64.ofQ 0.5;
  Ledger.initialMarketCap := F64.ofZ 2500;
  Ledger.timestamp := 1700000300000
|}.

Definition two_token_ledger : Ledger.Disk := {|
  Ledger.positionsFile := Some [tokenA_position; tokenB_position];
  Ledger.writeError := None;
  Ledger.writeFault := Ledger.AtOpen;
  Ledger.console := []
|}.

(** Every message of the zap-out callback goes out. *)
Definition zapOut_delivered : ZapOut.Chat := {|
  ZapOut.answered := Ok tt;
  ZapOut.notFoundShown := Ok tt;
  ZapOut.processingShown := Ok tt;
  ZapOut.successShown := Ok tt;
  ZapOut.failureShown := Ok tt
|}.

(** Every message of [executeZapIn] goes out. *)
Definition zapIn_delivered : ZapIn.Chat := {|
  ZapIn.invalidShown := Ok tt;
  ZapIn.preparingShown := Ok tt;
  ZapIn.sendingShown := Ok tt;
  ZapIn.sentShown := Ok tt;
  ZapIn.successShown := Ok tt;
  ZapIn.failureShown := Ok tt
|}.

(** The node does not answer. *)
Definition node_down : ZapIn.Reads := {|
  ZapIn.pairInfo := Throw (Error "timeout");
  ZapIn.reserves := Throw (Error "timeout");
  ZapIn.txOptionsData := Throw (Error "timeout");
  ZapIn.balance := Throw (Error "timeout");
  ZapIn.sent := fun _ => Throw (Error "timeout");
  ZapIn.receipt := fun _ => Throw (Error "timeout");
  ZapIn.pairInfoAfter := Throw (Error "timeout")
|}.

(** A disk on which the write of [positions.json] fails. *)
Definition read_only (d : Ledger.Disk) : Ledger.Disk := {|
  Ledger.positionsFile := Ledger.positionsFile d;
  Ledger.writeError := Some (Error "EACCES: permission denied");
  Ledger.writeFault := Ledger.AtOpen;
  Ledger.console := Ledger.console d
|}.

(** A disk that is full: the file is opened and the write then fails. *)
Definition full (d : Ledger.Disk) : Ledger.Disk := {|
  Ledger.positionsFile := Ledger.positionsFile d;
  Ledger.writeError := Some (Error "ENOSPC: no space left on device");
  Ledger.writeFault := Ledger.AfterOpen;
  Ledger.console := Ledger.console d
|}.

(** * Properties *)

(** ** Slippage engine *)

Section SlippageEngine.

Lemma BigInt_div_pos a b : 0 <= a -> 0 < b -> BigInt.div a b = Ok (a / b).
Proof.
  intros Ha Hb. unfold BigInt.div.
  destruct (Z.eqb_spec b 0) as [->|_]; [lia|].
  now rewrite Z.quot_div_nonneg by lia.
Qed.

(** On amounts and reserves that are not negative, with something to
    swap and an input reserve, the function is the floor of the
    constant-product quotient. *)
Lemma calculateAmountOut_pos amountIn reserveIn reserveOut :
  0 < amountIn -> 0 <= reserveIn -> 0 <= reserveOut ->
  calculateAmountOut amountIn reserveIn reserveOut
  = Ok (amountIn * 997 * reserveOut / (reserveIn * 1000 + amountIn * 997)).
Proof.
  intros Ha Hi Ho. unfold calculateAmountOut.
  destruct (Z.eqb_spec amountIn 0) as [->|_]; [lia|].
  cbv zeta. apply BigInt_div_pos; nia.
Qed.

(** Neither function can fail on amounts and reserves that are not
    negative. *)
Lemma calculateAmountOut_total amountIn reserveIn reserveOut :
  0 <= amountIn -> 0 <= reserveIn -> 0 <= reserveOut ->
  exists out, calculateAmountOut amountIn reserveIn reserveOut = Ok out /\ 0 <= out.
Proof.
  intros Ha Hi Ho.
  destruct (Z.eq_dec amountIn 0) as [->|Hne].
  - exists 0. split; [reflexivity|lia].
  - rewrite calculateAmountOut_pos by lia.
    eexists; split; [reflexivity|]. apply Z.div_pos; nia.
Qed.

Lemma calculatePriceImpact_total amountIn reserveIn reserveOut :
  0 <= amountIn -> 0 <= reserveIn -> 0 <= reserveOut ->
  exists impact, calculatePriceImpact amountIn reserveIn reserveOut = Ok impact.
Proof.
  intros Ha Hi Ho. unfold calculatePriceImpact.
  destruct (Z.eqb_spec amountIn 0) as [->|Hne]; [eauto|].
  destruct (_ || _); [eauto|]. cbv zeta.
  assert (0 <= amountIn * 997 * reserveOut) as Hn by (apply Z.mul_nonneg_nonneg; lia).
  rewrite BigInt_div_pos by lia. eauto.
Qed.

Lemma calculatePriceImpact_zero amountIn reserveIn reserveOut :
  amountIn = 0 \/ reserveIn = 0 \/ reserveOut = 0 ->
  calculatePriceImpact amountIn reserveIn reserveOut = Ok 0%Q.
Proof.
  intros [-> | [-> | ->]]; unfold calculatePriceImpact; cbn;
    rewrite ?orb_true_r; reflexivity.
Qed.

Lemma calculateAmountOut_zero_reserveOut amountIn reserveIn :
  0 <= amountIn -> 0 <= reserveIn ->
  calculateAmountOut amountIn reserveIn 0 = Ok 0.
Proof.
  intros Ha Hi.
  destruct (Z.eq_dec amountIn 0) as [->|Hne]; [reflexivity|].
  rewrite calculateAmountOut_pos by lia.
  now rewrite Z.mul_0_r, Z.div_0_l by lia.
Qed.

(** With an empty input reserve the whole output reserve is projected. *)
Lemma calculateAmountOut_zero_reserveIn amountIn reserveOut :
  0 < amountIn -> 0 <= reserveOut ->
  calculateAmountOut amountIn 0 reserveOut = Ok reserveOut.
Proof.
  intros Ha Ho. rewrite calculateAmountOut_pos by lia.
  f_equal. rewrite Z.mul_0_l, Z.add_0_l, Z.mul_comm.
  apply Z.div_mul. lia.
Qed.

(** C9. For fixed positive reserves [calculateAmountOut] is monotone in
    [amountIn]: an amount that is not smaller projects an output that is
    not smaller; and an amount of zero projects zero. *)
Theorem calculateAmountOut_monotone reserveIn reserveOut a1 a2 :
  0 < reserveIn -> 0 < reserveOut -> 0 <= a1 -> a1 <= a2 ->
  calculateAmountOut 0 reserveIn reserveOut = Ok 0 /\
  exists out1 out2,
    calculateAmountOut a1 reserveIn reserveOut = Ok out1 /\
    calculateAmountOut a2 reserveIn reserveOut = Ok out2 /\
    out1 <= out2.
Proof.
  intros Hi Ho H1 H12. split; [reflexivity|].
  destruct (Z.eq_dec a1 0) as [->|Hne].
  - destruct (calculateAmountOut_total a2 reserveIn reserveOut) as (o2 & E2 & Hpos);
      try lia.
    exists 0, o2. auto.
  - rewrite !calculateAmountOut_pos by lia.
    do 2 eexists. split; [reflexivity|]. split; [reflexivity|].
    set (d1 := reserveIn * 1000 + a1 * 997).
    set (d2 := reserveIn * 1000 + a2 * 997).
    set (n1 := a1 * 997 * reserveOut).
    set (n2 := a2 * 997 * reserveOut).
    assert (0 < d1) by (unfold d1; lia).
    assert (0 < d2) by (unfold d2; lia).
    apply Z.div_le_lower_bound; [lia|].
    pose proof (Z.mul_div_le n1 d1 ltac:(lia)) as Hq.
    assert (n1 * d2 <= n2 * d1) as Hcross.
    { unfold n1, n2, d1, d2.
      assert (a1 * reserveIn <= a2 * reserveIn) by nia. nia. }
    assert (0 <= n1 / d1) by (apply Z.div_pos; unfold n1; nia).
    apply Z.mul_le_mono_pos_l with (p := d1); [lia|].
    nia.
Qed.

(** The increase is not strict: both one and two wei project nothing
    against a deep input reserve. *)
Lemma calculateAmountOut_not_strict :
  calculateAmountOut 1 1000 1 = calculateAmountOut 2 1000 1.
Proof. reflexivity. Qed.

(** C10, as amended. With something to swap and both reserves positive,
    the projected output stays strictly below the output reserve. *)
Theorem calculateAmountOut_below_reserve amountIn reserveIn reserveOut :
  0 < amountIn -> 0 < reserveIn -> 0 < reserveOut ->
  exists out,
    calculateAmountOut amountIn reserveIn reserveOut = Ok out /\
    0 <= out < reserveOut.
Proof.
  intros Ha Hi Ho. rewrite calculateAmountOut_pos by lia.
  eexists. split; [reflexivity|]. split.
  - apply Z.div_pos; nia.
  - apply Z.div_lt_upper_bound; nia.
Qed.

(** The band table stays inside the configured bounds as soon as these
    enclose the fixed bands 100, 200 and 500. *)
Lemma Qltb_lt x y : Qltb x y = true <-> (x < y)%Q.
Proof.
  unfold Qltb. rewrite negb_true_iff, <- not_true_iff_false, Qle_bool_iff.
  split; [apply Qnot_le_lt | apply Qlt_not_le].
Qed.

Lemma Qltb_ge x y : Qltb x y = false <-> (y <= x)%Q.
Proof.
  unfold Qltb. now rewrite negb_false_iff, Qle_bool_iff.
Qed.

Lemma slippageBands_bounds cfg priceImpact :
  MIN_SLIPPAGE_BPS cfg <= 100 -> 500 <= MAX_SLIPPAGE_BPS cfg ->
  MIN_SLIPPAGE_BPS cfg <= slippageBands cfg priceImpact <= MAX_SLIPPAGE_BPS cfg.
Proof.
  intros Hmin Hmax. unfold slippageBands.
  destruct (Qltb priceImpact (1 # 2)); [lia|].
  destruct (Qltb priceImpact 2); [lia|].
  destruct (Qltb priceImpact 5); [lia|].
  destruct (Qltb priceImpact 10) eqn:E; [lia|].
  apply Qltb_ge in E.
  assert (1000 <= Qceiling (priceImpact * 100)).
  { change 1000 with (Qceiling (inject_Z 1000)) at 1.
    apply Qceiling_resp_le. unfold inject_Z. lra. }
  lia.
Qed.

(** C8, at the input where the code leaves the convention. With one wei
    to swap against an empty input reserve [calculatePriceImpact] reports
    no impact, and [calculateAmountOut] projects the whole output reserve
    rather than zero. *)
Theorem calculateAmountOut_empty_input_reserve :
  calculatePriceImpact 1 0 5 = Ok 0%Q /\ calculateAmountOut 1 0 5 = Ok 5.
Proof. split; reflexivity. Qed.

(** C10 as stated fails on an empty output reserve: the projection is
    zero, which is not below a reserve of zero. *)
Lemma calculateAmountOut_reaches_empty_reserve :
  ~ (forall amountIn reserveIn reserveOut out,
       0 < amountIn -> 0 < reserveIn ->
       calculateAmountOut amountIn reserveIn reserveOut = Ok out ->
       out < reserveOut).
Proof.
  intros claim.
  specialize (claim 1 1 0 0 ltac:(lia) ltac:(lia) eq_refl). lia.
Qed.

(** C4 as stated fails for a configured minimum above the first fixed
    band: an impact of about one percent is given 100 bps although
    [MIN_SLIPPAGE_BPS] is 150. *)
Lemma calculateDynamicSlippage_leaves_bounds :
  ~ (forall cfg reserveIn reserveOut amountIn tolerance,
       ENABLE_DYNAMIC_SLIPPAGE cfg = true ->
       calculateDynamicSlippage cfg reserveIn reserveOut amountIn = Ok tolerance ->
       MIN_SLIPPAGE_BPS cfg <= tolerance <= MAX_SLIPPAGE_BPS cfg).
Proof.
  intros claim.
  specialize (claim (with_MIN_SLIPPAGE_BPS 150 (default_config true))
                    1000000 1000000 5000 100 eq_refl eq_refl).
  cbn in claim. lia.
Qed.

(** C4, as amended. On amounts and reserves that are not negative a
    tolerance is returned; with dynamic slippage enabled it lies between
    [MIN_SLIPPAGE_BPS] and [MAX_SLIPPAGE_BPS] provided these enclose the
    fixed bands (minimum at most 100, maximum at least 500), and with
    dynamic slippage disabled it is [SLIPPAGE_BPS]. *)
Theorem calculateDynamicSlippage_bounds cfg reserveIn reserveOut amountIn :
  0 <= amountIn -> 0 <= reserveIn -> 0 <= reserveOut ->
  exists tolerance,
    calculateDynamicSlippage cfg reserveIn reserveOut amountIn = Ok tolerance /\
    if ENABLE_DYNAMIC_SLIPPAGE cfg
    then MIN_SLIPPAGE_BPS cfg <= 100 -> 500 <= MAX_SLIPPAGE_BPS cfg ->
         MIN_SLIPPAGE_BPS cfg <= tolerance <= MAX_SLIPPAGE_BPS cfg
    else tolerance = SLIPPAGE_BPS cfg.
Proof.
  intros Ha Hi Ho. unfold calculateDynamicSlippage.
  destruct (ENABLE_DYNAMIC_SLIPPAGE cfg); cbn.
  - destruct (calculatePriceImpact_total amountIn reserveIn reserveOut)
      as [impact ->]; try assumption.
    eexists. split; [reflexivity|]. apply slippageBands_bounds.
  - eauto.
Qed.

Lemma calculateDynamicSlippage_bounds_witness :
  exists tolerance,
    calculateDynamicSlippage (default_config true) 1000000 1000000 5000
    = Ok tolerance /\
    (50 <= 100 -> 500 <= 5000 -> 50 <= tolerance <= 5000).
Proof.
  apply (calculateDynamicSlippage_bounds (default_config true) 1000000 1000000 5000);
    lia.
Defined.

Lemma calculateAmountOut_monotone_witness :
  calculateAmountOut 0 1000 1000 = Ok 0 /\
  exists out1 out2,
    calculateAmountOut 10 1000 1000 = Ok out1 /\
    calculateAmountOut 20 1000 1000 = Ok out2 /\
    out1 <= out2.
Proof. apply (calculateAmountOut_monotone 1000 1000 10 20); lia. Defined.

Lemma calculateAmountOut_below_reserve_witness :
  exists out, calculateAmountOut 10 1000 1000 = Ok out /\ 0 <= out < 1000.
Proof. apply (calculateAmountOut_below_reserve 10 1000 1000); lia. Defined.

End SlippageEngine.

(** ** Gas price resolver *)

Section GasPriceResolverProperties.

Context {S : Type} `{Console S}.
Variable cfg : Config.

Lemma toFixed9_mono x y : (x <= y)%Q -> toFixed9 x <= toFixed9 y.
Proof.
  intros Hxy. unfold toFixed9, gwei.
  destruct (Qle_bool 0 x) eqn:Ex, (Qle_bool 0 y) eqn:Ey.
  - apply Qfloor_resp_le. lra.
  - apply Qle_bool_iff in Ex.
    apply not_true_iff_false in Ey. rewrite Qle_bool_iff in Ey. lra.
  - apply not_true_iff_false in Ex. rewrite Qle_bool_iff in Ex.
    apply Qle_bool_iff in Ey.
    assert (0 <= Qfloor (- x * 1000000000 + (1 # 2))).
    { change 0 with (Qfloor 0). apply Qfloor_resp_le. lra. }
    assert (0 <= Qfloor (y * 1000000000 + (1 # 2))).
    { change 0 with (Qfloor 0). apply Qfloor_resp_le. lra. }
    lia.
  - assert (Qfloor (- y * 1000000000 + (1 # 2))
            <= Qfloor (- x * 1000000000 + (1 # 2))).
    { apply Qfloor_resp_le. lra. }
    lia.
Qed.

Lemma parseUnits_toFixed9_min raw capped priority maxFee :
  parseUnits_toFixed9 capped = Ok maxFee ->
  parseUnits_toFixed9 (Num.min raw capped) = Ok priority ->
  priority <= maxFee.
Proof.
  destruct raw as [r|], capped as [c|]; cbn; try discriminate.
  destruct (Qle_bool exponent_above (Qabs c)); [discriminate|].
  destruct (Qle_bool exponent_above (Qabs (Qmin r c))); [discriminate|].
  intros [= <-] [= <-]. apply toFixed9_mono, Q.le_min_r.
Qed.

Lemma parseUnits_toString_mono x y a b :
  parseUnits_toString x = Ok a -> parseUnits_toString y = Ok b ->
  (x <= y)%Q -> a <= b.
Proof.
  unfold parseUnits_toString, gwei.
  destruct (_ && _); [discriminate|].
  destruct (_ && _); [discriminate|].
  cbv zeta.
  remember (Qfloor (x * 1000000000)) as fx eqn:Efx.
  remember (Qfloor (y * 1000000000)) as fy eqn:Efy.
  destruct (Qeq_bool _ _); [|discriminate].
  destruct (Qeq_bool _ _); [|discriminate].
  intros Ha Hb Hxy.
  assert (a = fx) as -> by congruence.
  assert (b = fy) as -> by congruence.
  subst fx fy. apply Qfloor_resp_le. lra.
Qed.

(** What the Etherscan tier returns keeps the priority fee within the
    max fee. *)
Lemma fetchTxOptionsFromEtherscan_priority_le_max reply s quote s' :
  fetchTxOptionsFromEtherscan cfg reply s = (Ok quote, s') ->
  maxPriorityFeePerGas quote <= maxFeePerGas quote.
Proof.
  unfold fetchTxOptionsFromEtherscan.
  destruct reply as [e|status|message|sf pr fa base]; try discriminate.
  cbv zeta. unfold bind, lift, log, modify, ret.
  destruct (parseUnits_toFixed9 (Num.min _ (Fin (MAX_GAS_PRICE_GWEI cfg))))
    as [maxFee|] eqn:Emax; [|discriminate].
  destruct (parseUnits_toFixed9 (Num.min (Num.max _ _) _))
    as [priority|] eqn:Eprio; [|discriminate].
  intros [= <- _]. cbn.
  eapply parseUnits_toFixed9_min; eassumption.
Qed.

(** So does what the node tier returns. *)
Lemma fetchTxOptionsFromRPC_priority_le_max reply s quote s' :
  fetchTxOptionsFromRPC cfg reply s = (Ok quote, s') ->
  maxPriorityFeePerGas quote <= maxFeePerGas quote.
Proof.
  unfold fetchTxOptionsFromRPC, bind, lift, log, modify, ret, throw.
  destruct reply as [e|feeData]; [discriminate|].
  destruct (truthy (FeeData.maxFeePerGas feeData)) as [feeMax|]; [|discriminate].
  destruct (parseUnits_toString (MAX_GAS_PRICE_GWEI cfg)) as [cap|]; [|discriminate].
  destruct (truthy (FeeData.maxPriorityFeePerGas feeData)) as [p|].
  - intros [= <- _]. cbn. destruct (p >? _) eqn:E; lia.
  - destruct (parseUnits_toString (PRIORITY_FEE_GWEI cfg)) as [p|]; [|discriminate].
    intros [= <- _]. cbn. destruct (p >? _) eqn:E; lia.
Qed.

Lemma attempt_Ok (tier : M S TxOptions) failed s quote s' :
  tier s = (Ok quote, s') -> attempt tier failed s = (Ok (Some quote), s').
Proof. intros E. unfold attempt, try_catch, bind, ret. now rewrite E. Qed.

Lemma attempt_Throw (tier : M S TxOptions) failed s e s' :
  tier s = (Throw e, s') ->
  attempt tier failed s = (Ok None, console_write (warn, failed e) s').
Proof. intros E. unfold attempt, try_catch, bind, ret. now rewrite E. Qed.

Lemma defaultTxOptions_Ok s defaultGasPrice defaultPriorityFee :
  parseUnits_toString (DEFAULT_GAS_PRICE_GWEI cfg) = Ok defaultGasPrice ->
  parseUnits_toString (PRIORITY_FEE_GWEI cfg) = Ok defaultPriorityFee ->
  defaultTxOptions cfg s
  = (Ok {| gasPrice := defaultGasPrice;
           maxFeePerGas := defaultGasPrice;
           maxPriorityFeePerGas := defaultPriorityFee |},
     console_write (info, UsingDefaultGas (DEFAULT_GAS_PRICE_GWEI cfg)) s).
Proof.
  intros Ed Ep. unfold defaultTxOptions, bind, lift, log, modify, ret.
  now rewrite Ed, Ep.
Qed.

(** The order of the tiers: the Etherscan quote when that tier returns;
    else, after the warning, the node quote when that tier returns; else,
    after a second warning, the static default. *)
Lemma fetchTxOptions_tiers etherscan rpc s :
  match fetchTxOptionsFromEtherscan cfg etherscan s with
  | (Ok quote, s1) => fetchTxOptions cfg etherscan rpc s = (Ok quote, s1)
  | (Throw e1, s1) =>
      match fetchTxOptionsFromRPC cfg rpc
              (console_write (warn, EtherscanFailed e1) s1) with
      | (Ok quote, s2) => fetchTxOptions cfg etherscan rpc s = (Ok quote, s2)
      | (Throw e2, s2) =>
          fetchTxOptions cfg etherscan rpc s
          = defaultTxOptions cfg (console_write (warn, RPCFailed e2) s2)
      end
  end.
Proof.
  destruct (fetchTxOptionsFromEtherscan cfg etherscan s) as [[quote|e1] s1] eqn:E1.
  - unfold fetchTxOptions, bind.
    now rewrite (attempt_Ok _ EtherscanFailed _ _ _ E1).
  - destruct (fetchTxOptionsFromRPC cfg rpc _) as [[quote|e2] s2] eqn:E2;
      unfold fetchTxOptions, bind;
      rewrite (attempt_Throw _ EtherscanFailed _ _ _ E1); cbv beta iota.
    + now rewrite (attempt_Ok _ RPCFailed _ _ _ E2).
    + now rewrite (attempt_Throw _ RPCFailed _ _ _ E2).
Qed.

(** C1, as amended. When the two constants of the static tier are amounts
    [parseUnits] accepts, the resolver returns a quote whatever the
    upstream tiers do.  When the Etherscan tier throws, the node tier
    runs, after the warning, and its quote is the result when it returns
    one; when it throws as well, the result is the static default. *)
Theorem fetchTxOptions_never_fails etherscan rpc s defaultGasPrice defaultPriorityFee :
  parseUnits_toString (DEFAULT_GAS_PRICE_GWEI cfg) = Ok defaultGasPrice ->
  parseUnits_toString (PRIORITY_FEE_GWEI cfg) = Ok defaultPriorityFee ->
  (exists quote s', fetchTxOptions cfg etherscan rpc s = (Ok quote, s')) /\
  (forall e1 s1,
     fetchTxOptionsFromEtherscan cfg etherscan s = (Throw e1, s1) ->
     let warned := console_write (warn, EtherscanFailed e1) s1 in
     (forall quote s2,
        fetchTxOptionsFromRPC cfg rpc warned = (Ok quote, s2) ->
        fetchTxOptions cfg etherscan rpc s = (Ok quote, s2)) /\
     (forall e2 s2,
        fetchTxOptionsFromRPC cfg rpc warned = (Throw e2, s2) ->
        fetchTxOptions cfg etherscan rpc s
        = (Ok {| gasPrice := defaultGasPrice;
                 maxFeePerGas := defaultGasPrice;
                 maxPriorityFeePerGas := defaultPriorityFee |},
           console_write (info, UsingDefaultGas (DEFAULT_GAS_PRICE_GWEI cfg))
             (console_write (warn, RPCFailed e2) s2)))).
Proof.
  intros Ed Ep. pose proof (fetchTxOptions_tiers etherscan rpc s) as T.
  split.
  - destruct (fetchTxOptionsFromEtherscan cfg etherscan s) as [[quote|e1] s1];
      [eauto|].
    destruct (fetchTxOptionsFromRPC cfg rpc _) as [[quote|e2] s2]; [eauto|].
    rewrite T, (defaultTxOptions_Ok _ _ _ Ed Ep). eauto.
  - intros e1 s1 E1 warned. subst warned. rewrite E1 in T. split.
    + intros quote s2 E2. now rewrite E2 in T.
    + intros e2 s2 E2. rewrite E2 in T.
      now rewrite T, (defaultTxOptions_Ok _ _ _ Ed Ep).
Qed.

(** When moreover the configured priority fee does not exceed the
    configured default gas price, every quote the resolver returns keeps
    the priority fee within the max fee. *)
Lemma fetchTxOptions_priority_le_max etherscan rpc s quote s' :
  (PRIORITY_FEE_GWEI cfg <= DEFAULT_GAS_PRICE_GWEI cfg)%Q ->
  fetchTxOptions cfg etherscan rpc s = (Ok quote, s') ->
  maxPriorityFeePerGas quote <= maxFeePerGas quote.
Proof.
  intros Hle E. pose proof (fetchTxOptions_tiers etherscan rpc s) as T.
  destruct (fetchTxOptionsFromEtherscan cfg etherscan s) as [[q1|e1] s1] eqn:E1.
  - rewrite E in T. injection T as <- _.
    eapply fetchTxOptionsFromEtherscan_priority_le_max, E1.
  - destruct (fetchTxOptionsFromRPC cfg rpc _) as [[q2|e2] s2] eqn:E2.
    + rewrite E in T. injection T as <- _.
      eapply fetchTxOptionsFromRPC_priority_le_max, E2.
    + rewrite E in T. symmetry in T.
      unfold defaultTxOptions, bind, lift, log, modify, ret in T.
      destruct (parseUnits_toString (DEFAULT_GAS_PRICE_GWEI cfg))
        as [d|] eqn:Ed; [|discriminate].
      destruct (parseUnits_toString (PRIORITY_FEE_GWEI cfg))
        as [p|] eqn:Ep; [|discriminate].
      injection T as <- _. cbn.
      eapply parseUnits_toString_mono; eassumption.
Qed.

End GasPriceResolverProperties.

(** C1 as stated fails. With [PRIORITY_FEE_GWEI=2.0000000001] and both
    upstream tiers down, the static tier hands ["2.0000000001"] to
    [parseUnits(..., 'gwei')], which throws on the tenth fractional digit,
    outside of any [try]: the resolver raises. *)
Lemma fetchTxOptions_raises :
  ~ (forall cfg etherscan rpc (s : list LogEntry),
       exists quote s', fetchTxOptions cfg etherscan rpc s = (Ok quote, s')).
Proof.
  intros claim.
  destruct (claim fine_priority_config etherscan_down rpc_down [])
    as (quote & s' & E).
  vm_compute in E. discriminate E.
Qed.

(** With the default configuration and both upstream tiers down, the
    resolver returns the static quote of 30 gwei with a priority fee of
    2 gwei. *)
Lemma fetchTxOptions_never_fails_witness :
  fetchTxOptions (default_config true) etherscan_down rpc_down []
  = (Ok {| gasPrice := 30000000000;
           maxFeePerGas := 30000000000;
           maxPriorityFeePerGas := 2000000000 |},
     [(warn, EtherscanFailed (Error "HTTP error! status"));
      (info, FetchingFromRPC);
      (warn, RPCFailed (Error "timeout"));
      (info, UsingDefaultGas 30)]).
Proof.
  exact (proj2 (proj2 (fetchTxOptions_never_fails (default_config true)
                         etherscan_down rpc_down [] 30000000000 2000000000
                         eq_refl eq_refl)
                  (Error "HTTP error! status") [] eq_refl)
           (Error "timeout")
           [(warn, EtherscanFailed (Error "HTTP error! status"));
            (info, FetchingFromRPC)]
           eq_refl).
Defined.

(** C2, at a run where the invariant breaks. With [PRIORITY_FEE_GWEI=50]
    (and the default gas price left at 30) and both upstream tiers down,
    the static tier returns a priority fee of 50 gwei above a max fee of
    30 gwei: it does not clamp as the two other tiers do. *)
Theorem fetchTxOptions_default_priority_above_max :
  exists quote log,
    fetchTxOptions high_priority_config etherscan_down rpc_down [] = (Ok quote, log) /\
    maxFeePerGas quote = 30000000000 /\
    maxPriorityFeePerGas quote = 50000000000 /\
    ~ (maxPriorityFeePerGas quote <= maxFeePerGas quote).
Proof.
  do 2 eexists. split; [vm_compute; reflexivity|]. cbn. repeat split. lia.
Qed.

(** ** TTL cache *)

Section CacheProperties.

Context {V W : Type} `{Console W}.
Variable cfg : Config.
Variable key : string.

Local Abbreviation State := (Cache.State V W).
Local Abbreviation ttl := (CACHE_DURATION_SECONDS cfg * 1000).
Local Abbreviation missed := (Cache.missed key).

Lemma getCachedData_fresh now (f : M W V) (st : State) item :
  Cache.apiCache st !! key = Some item ->
  now - Cache.timestamp item < ttl ->
  Cache.getCachedData cfg now key f st = (Ok (Cache.data item), st).
Proof.
  intros Hc Hf. unfold Cache.getCachedData, bind, gets. rewrite Hc.
  unfold Cache.fresh. now rewrite (proj2 (Z.ltb_lt _ _) Hf).
Qed.

Lemma getCachedData_fetched now (f : M W V) (st : State) v w' :
  Cache.fresh cfg now (Cache.apiCache st !! key) = false ->
  f (missed st) = (Ok v, w') ->
  Cache.getCachedData cfg now key f st
  = (Ok v,
     {| Cache.apiCache :=
          <[key := {| Cache.data := v; Cache.timestamp := now |}]> (Cache.apiCache st);
        Cache.world := w' |}).
Proof.
  intros Hf E. unfold Cache.getCachedData, bind, gets. rewrite Hf.
  unfold log, modify, try_catch, Cache.await, Cache.set, modify, ret. cbn.
  fold (missed st). now rewrite E.
Qed.

Lemma getCachedData_stale now (f : M W V) (st : State) item e w' :
  Cache.apiCache st !! key = Some item ->
  Cache.fresh cfg now (Cache.apiCache st !! key) = false ->
  f (missed st) = (Throw e, w') ->
  Cache.getCachedData cfg now key f st
  = (Ok (Cache.data item),
     {| Cache.apiCache := Cache.apiCache st;
        Cache.world :=
          console_write (warn, CacheStale key)
            (console_write (error, FetchFailed key e) w') |}).
Proof.
  intros Hc Hf E. unfold Cache.getCachedData, bind, gets. rewrite Hf, Hc.
  unfold log, modify, try_catch, Cache.await, ret. cbn.
  fold (missed st). now rewrite E.
Qed.

Lemma getCachedData_propagates now (f : M W V) (st : State) e w' :
  Cache.apiCache st !! key = None ->
  f (missed st) = (Throw e, w') ->
  Cache.getCachedData cfg now key f st
  = (Throw e,
     {| Cache.apiCache := Cache.apiCache st;
        Cache.world := console_write (error, FetchFailed key e) w' |}).
Proof.
  intros Hc E. unfold Cache.getCachedData, bind, gets. rewrite Hc. cbn.
  unfold log, modify, try_catch, Cache.await, throw. cbn.
  fold (missed st). now rewrite E.
Qed.

(** A call that returns leaves an entry with the returned data. *)
Lemma getCachedData_Ok_cached now (f : M W V) (st st' : State) v :
  Cache.getCachedData cfg now key f st = (Ok v, st') ->
  exists item, Cache.apiCache st' !! key = Some item /\ Cache.data item = v.
Proof.
  intros E.
  destruct (Cache.fresh cfg now (Cache.apiCache st !! key)) eqn:Hf.
  - destruct (Cache.apiCache st !! key) as [item|] eqn:Hc; [|discriminate].
    apply Z.ltb_lt in Hf.
    rewrite (getCachedData_fresh _ _ _ _ Hc Hf) in E.
    injection E as <- <-. eauto.
  - destruct (f (missed st)) as [[v'|e] w'] eqn:Ef.
    + rewrite (getCachedData_fetched _ _ _ _ _ Hf Ef) in E.
      injection E as <- <-. eexists. cbn. rewrite lookup_insert_eq. eauto.
    + destruct (Cache.apiCache st !! key) as [item|] eqn:Hc.
      * rewrite (getCachedData_stale _ _ _ _ _ _ Hc) in E by (rewrite ?Hc; eauto).
        injection E as <- <-. eauto.
      * rewrite (getCachedData_propagates _ _ _ _ _ Hc Ef) in E. discriminate.
Qed.

(** Against a fetcher that fails, an entry is served, fresh or stale, and
    stays in place. *)
Lemma getCachedData_served now (f : M W V) (st : State) item :
  Cache.apiCache st !! key = Some item ->
  Cache.always_fails f ->
  exists st',
    Cache.getCachedData cfg now key f st = (Ok (Cache.data item), st') /\
    Cache.apiCache st' = Cache.apiCache st.
Proof.
  intros Hc Hfail.
  destruct (Cache.fresh cfg now (Cache.apiCache st !! key)) eqn:Hf.
  - exists st. split; [|reflexivity]. apply getCachedData_fresh; [assumption|].
    rewrite Hc in Hf. now apply Z.ltb_lt in Hf.
  - destruct (Hfail (missed st)) as (e & w' & Ef).
    eexists. split; [now apply getCachedData_stale with (e := e) (w' := w')|].
    reflexivity.
Qed.

Lemma calls_served script (st : State) item :
  Cache.apiCache st !! key = Some item ->
  Forall (fun call => Cache.always_fails (snd call)) script ->
  fst (Cache.calls cfg key script st)
  = map (fun _ => Ok (Cache.data item)) script.
Proof.
  intros Hc Hall. revert st Hc.
  induction Hall as [|[now f] script Hf _ IH]; intros st Hc; [reflexivity|].
  cbn [Cache.calls map].
  destruct (getCachedData_served now f st item Hc Hf) as (st' & -> & Hsame).
  specialize (IH st'). rewrite Hsame in IH. specialize (IH Hc).
  destruct (Cache.calls cfg key script st') as [rs st'']. cbn in *.
  now rewrite IH.
Qed.

(** C5. The contract of [getCachedData]: an entry younger than the TTL is
    returned as it is, whatever the fetcher, and nothing changes;
    otherwise, that is without an entry or with one that has reached the
    TTL, the fetcher runs, and its result is stored under the key with the
    current time and returned; when it throws, a stale entry is returned
    and kept, and without an entry the error propagates.  So once a call
    has returned a value, every later call for the key whose fetcher fails
    returns that value. *)
Theorem getCachedData_contract now (f : M W V) (st : State) :
  (forall item,
     Cache.apiCache st !! key = Some item ->
     now - Cache.timestamp item < ttl ->
     Cache.getCachedData cfg now key f st = (Ok (Cache.data item), st)) /\
  (forall v w',
     (forall item,
        Cache.apiCache st !! key = Some item ->
        ttl <= now - Cache.timestamp item) ->
     f (missed st) = (Ok v, w') ->
     Cache.getCachedData cfg now key f st
     = (Ok v,
        {| Cache.apiCache :=
             <[key := {| Cache.data := v; Cache.timestamp := now |}]>
               (Cache.apiCache st);
           Cache.world := w' |})) /\
  (forall item e w',
     Cache.apiCache st !! key = Some item ->
     ~ now - Cache.timestamp item < ttl ->
     f (missed st) = (Throw e, w') ->
     exists st',
       Cache.getCachedData cfg now key f st = (Ok (Cache.data item), st') /\
       Cache.apiCache st' = Cache.apiCache st) /\
  (forall e w',
     Cache.apiCache st !! key = None ->
     f (missed st) = (Throw e, w') ->
     fst (Cache.getCachedData cfg now key f st) = Throw e) /\
  (forall v st' script,
     Cache.getCachedData cfg now key f st = (Ok v, st') ->
     Forall (fun call => Cache.always_fails (snd call)) script ->
     fst (Cache.calls cfg key script st') = map (fun _ => Ok v) script).
Proof.
  repeat split.
  - intros item Hc Hf. now apply getCachedData_fresh.
  - intros v w' Hold E. apply getCachedData_fetched; [|exact E].
    destruct (Cache.apiCache st !! key) as [item|]; [|reflexivity].
    cbn. apply Z.ltb_ge. now apply Hold.
  - intros item e w' Hc Hf E.
    assert (Cache.fresh cfg now (Cache.apiCache st !! key) = false) as Hstale.
    { rewrite Hc. cbn. apply Z.ltb_ge. lia. }
    eexists. split; [exact (getCachedData_stale _ _ _ _ _ _ Hc Hstale E)|].
    reflexivity.
  - intros e w' Hc E. now rewrite (getCachedData_propagates _ _ _ _ _ Hc E).
  - intros v st' script E Hall.
    destruct (getCachedData_Ok_cached _ _ _ _ _ E) as (item & Hc & <-).
    now apply calls_served.
Qed.

End CacheProperties.

(** A fetcher succeeds once with 7; the three later calls, within the TTL
    and long after it, find the upstream failing and are served 7. *)
(** With the TTL of ten seconds: an entry that is a minute old is fetched
    again, and the price fetched at time 0 is served at every later time
    while the service is down. *)
Lemma getCachedData_contract_witness :
  Cache.getCachedData (default_config true) 60000 "ethPrice" (ret 9)
    {| Cache.apiCache :=
         {[ "ethPrice" := {| Cache.data := 7; Cache.timestamp := 0 |} ]};
       Cache.world := [] |}
  = (Ok 9,
     {| Cache.apiCache :=
          <["ethPrice" := {| Cache.data := 9; Cache.timestamp := 60000 |}]>
            {[ "ethPrice" := {| Cache.data := 7; Cache.timestamp := 0 |} ]};
        Cache.world := [(info, CacheMiss "ethPrice")] |}) /\
  fst (Cache.calls (default_config true) "ethPrice"
         [(5000, throw (Error "down")); (20000, throw (Error "down"));
          (900000, throw (Error "down"))]
         {| Cache.apiCache :=
              {[ "ethPrice" := {| Cache.data := 7; Cache.timestamp := 0 |} ]};
            Cache.world := [(info, CacheMiss "ethPrice")] |})
  = [Ok 7; Ok 7; Ok 7].
Proof.
  split.
  - refine (proj1 (proj2
      (getCachedData_contract (V := Z) (W := list LogEntry)
         (default_config true) "ethPrice" 60000 (ret 9)
         {| Cache.apiCache :=
              {[ "ethPrice" := {| Cache.data := 7; Cache.timestamp := 0 |} ]};
            Cache.world := [] |}))
      9 [(info, CacheMiss "ethPrice")] _ _).
    + intros item Hitem. cbn [Cache.apiCache] in Hitem.
      rewrite lookup_singleton_eq in Hitem. injection Hitem as <-. cbn. lia.
    + reflexivity.
  - apply (proj2 (proj2 (proj2 (proj2
      (getCachedData_contract (V := Z) (W := list LogEntry)
         (default_config true) "ethPrice" 0 (ret 7)
         {| Cache.apiCache := ∅; Cache.world := [] |})))) 7).
    + reflexivity.
    + repeat constructor; intros w; do 2 eexists; reflexivity.
Defined.

(** ** Position ledger *)

Section LedgerProperties.

Import Ledger.

Lemma loadPositions_file d positions :
  positionsFile d = Some positions ->
  loadPositions d
  = (Ok positions, console_write (info, PositionsLoaded (length positions)) d).
Proof. intros E. unfold loadPositions, bind, gets. now rewrite E. Qed.

Lemma loadPositions_missing d :
  positionsFile d = None ->
  loadPositions d = (Ok [], console_write (warn, PositionsNotFound) d).
Proof. intros E. unfold loadPositions, bind, gets. now rewrite E. Qed.

Lemma savePositions_written positions d :
  writeError d = None ->
  savePositions positions d
  = (Ok tt,
     {| positionsFile := Some positions;
        writeError := None;
        writeFault := writeFault d;
        console := console d ++ [(info, PositionsSaved (length positions))] |}).
Proof.
  intros E. unfold savePositions, try_catch, bind, writeFile. rewrite E.
  reflexivity.
Qed.

Lemma savePositions_failed positions d e :
  writeError d = Some e ->
  savePositions positions d
  = (Ok tt,
     {| positionsFile := left_by_failed_write d;
        writeError := Some e;
        writeFault := writeFault d;
        console := console d ++ [(error, PositionsSaveFailed e)] |}).
Proof.
  intros E. unfold savePositions, try_catch, bind, writeFile. rewrite E.
  reflexivity.
Qed.

(** C3 as stated fails: on a disk that rejects the write, [savePositions]
    does not raise. *)
Lemma savePositions_swallows_write_failure :
  ~ (forall positions d e,
       writeError d = Some e ->
       exists e', fst (savePositions positions d) = Throw e').
Proof.
  intros claim.
  destruct (claim [tokenA_position] (read_only tokenA_ledger) _ eq_refl)
    as [e' E].
  discriminate E.
Qed.

(** C3, as amended. [savePositions] always completes normally.  When the
    write fails, the error is caught and logged at level [error], and the
    caller is not told; the file is as the failed write left it, which is
    as it was only when the file could not be opened, and unreadable
    otherwise.  When the write succeeds the file holds the positions and
    the save is logged. *)
Theorem savePositions_completes positions d :
  fst (savePositions positions d) = Ok tt /\
  match writeError d with
  | Some e =>
      snd (savePositions positions d)
      = {| positionsFile :=
             match writeFault d with
             | AtOpen => positionsFile d
             | AfterOpen => None
             end;
           writeError := writeError d;
           writeFault := writeFault d;
           console := console d ++ [(error, PositionsSaveFailed e)] |}
  | None =>
      snd (savePositions positions d)
      = {| positionsFile := Some positions;
           writeError := None;
           writeFault := writeFault d;
           console := console d ++ [(info, PositionsSaved (length positions))] |}
  end.
Proof.
  destruct (writeError d) as [e|] eqn:E.
  - rewrite (savePositions_failed _ _ _ E). split; reflexivity.
  - now rewrite (savePositions_written _ _ E).
Qed.

Section Entries.

Variable getAddress : string -> string.

Lemma findIndex_Some token positions i :
  findIndex getAddress token positions = Some i ->
  exists pos,
    positions !! i = Some pos /\
    getAddress (tokenAddress pos) = getAddress token.
Proof.
  revert i. induction positions as [|p rest IH]; intros i; cbn; [discriminate|].
  destruct (String.eqb_spec (getAddress (tokenAddress p)) (getAddress token))
    as [Heq|Hne].
  - intros [= <-]. eauto.
  - destruct (findIndex getAddress token rest) as [j|]; [|discriminate].
    intros [= <-]. cbn. apply IH. reflexivity.
Qed.

Lemma findIndex_None token positions :
  findIndex getAddress token positions = None ->
  Forall (fun pos => getAddress (tokenAddress pos) <> getAddress token) positions.
Proof.
  induction positions as [|p rest IH]; cbn; [constructor|].
  destruct (String.eqb_spec (getAddress (tokenAddress p)) (getAddress token))
    as [Heq|Hne]; [discriminate|].
  destruct (findIndex getAddress token rest) as [j|]; [discriminate|].
  intros _. constructor; auto.
Qed.

Lemma alter_lookup_insert {A} (f : A -> A) (l : list A) i x :
  l !! i = Some x -> alter f i l = <[i := f x]> l.
Proof.
  revert i. induction l as [|y l IH]; intros [|i]; cbn; try discriminate.
  - now intros [= ->].
  - intros E. f_equal. now apply IH.
Qed.

(** The ledger [updateAndSavePosition] writes, given the one it loaded. *)
Lemma updateAndSavePosition_written now pairInfo token ethAmount d positions :
  positionsFile d = Some positions ->
  writeError d = None ->
  positionsFile
    (snd (updateAndSavePosition getAddress now (Ok pairInfo) token ethAmount d))
  = Some
      match findIndex getAddress token positions with
      | Some existingIndex =>
          alter (fun pos => merge pos ethAmount (marketCap pairInfo) now)
                existingIndex positions
      | None =>
          positions ++
            [{| tokenAddress := token;
                pairAddress := pi_pairAddress pairInfo;
                initialEthValue := ethAmount;
                initialMarketCap := marketCap pairInfo;
                timestamp := now |}]
      end.
Proof.
  intros Hfile Hw. unfold updateAndSavePosition, bind at 1.
  rewrite (loadPositions_file _ _ Hfile). unfold bind, lift.
  destruct (findIndex getAddress token positions);
    now rewrite savePositions_written.
Qed.





(** Entries keep the ledger at one position per token. *)
Lemma updateAndSavePosition_one_per_token now pairInfo token ethAmount d positions :
  positionsFile d = Some positions ->
  writeError d = None ->
  NoDup (identity getAddress <$> positions) ->
  exists positions',
    positionsFile
      (snd (updateAndSavePosition getAddress now (Ok pairInfo) token ethAmount d))
    = Some positions' /\
    NoDup (identity getAddress <$> positions').
Proof.
  intros Hfile Hw Hnd.
  rewrite (updateAndSavePosition_written _ _ _ _ _ _ Hfile Hw).
  eexists. split; [reflexivity|].
  destruct (findIndex getAddress token positions) as [i|] eqn:Ei.
  - rewrite (list_fmap_alter (identity getAddress) _ (fun key => key)).
    + now rewrite list_alter_id.
    + apply Forall_forall. reflexivity.
  - rewrite fmap_app. apply NoDup_app. repeat split; [assumption| |].
    + intros key Hin Hnew. apply list_elem_of_fmap in Hin as (pos & -> & Hpos).
      apply list_elem_of_singleton in Hnew.
      pose proof (findIndex_None _ _ Ei) as Hall.
      rewrite Forall_forall in Hall. now apply (Hall pos Hpos).
    + apply NoDup_singleton.
Qed.

(** The ledger after a confirmed zap-out, given the one on disk. *)
Lemma execute_zapout_written percentage positionIndex d positions position :
  positionsFile d = Some positions ->
  at_index positions positionIndex = Some position ->
  writeError d = None ->
  positionsFile (snd (execute_zapout percentage (Ok tt) positionIndex d))
  = Some (if percentage =? 100 then splice1 positionIndex positions
          else positions).
Proof.
  intros Hfile Hat Hw. unfold execute_zapout, bind at 1.
  rewrite (loadPositions_file _ _ Hfile), Hat.
  unfold try_catch, bind at 1. unfold lift, bind at 1, log, modify.
  unfold bind at 1.
  rewrite (loadPositions_file _ positions) by exact Hfile.
  destruct (percentage =? 100); unfold bind; now rewrite savePositions_written.
Qed.

Lemma splice1_in_range {A} (l : list A) index x :
  at_index l index = Some x ->
  l !! Z.to_nat index = Some x /\
  splice1 index l
  = take (Z.to_nat index) l ++ drop (Datatypes.S (Z.to_nat index)) l.
Proof.
  unfold at_index, splice1.
  destruct (Z.ltb_spec index 0) as [|Hge]; [discriminate|].
  intros Hl. split; [assumption|]. apply lookup_lt_Some in Hl.
  rewrite Z.min_l by lia. apply delete_take_drop.
Qed.



End Entries.

End LedgerProperties.




(** A save on a full disk: it completes, and the ledger is gone. *)
Lemma savePositions_completes_witness :
  let run := Ledger.savePositions [] (full tokenA_ledger) in
  fst run = Ok tt /\
  Ledger.positionsFile (snd run) = None /\
  Ledger.console (snd run)
  = [(error, PositionsSaveFailed (Error "ENOSPC: no space left on device"))].
Proof.
  cbv zeta.
  destruct (savePositions_completes [] (full tokenA_ledger)) as [Hdone Hdisk].
  split; [exact Hdone|].
  exact (conj (f_equal Ledger.positionsFile Hdisk)
              (f_equal Ledger.console Hdisk)).
Defined.

(** ** Projected output and price impact *)

Section Projection.

(** The projection of a swap, for an amount and reserves that are
    positive: it is not negative and stays below the output reserve. *)
Lemma amountOut_range amountIn reserveIn reserveOut :
  0 < amountIn -> 0 < reserveIn -> 0 < reserveOut ->
  0 <= amountIn * 997 * reserveOut / (reserveIn * 1000 + amountIn * 997)
    < reserveOut.
Proof.
  intros Ha Hi Ho. split.
  - apply Z.div_pos; nia.
  - apply Z.div_lt_upper_bound; nia.
Qed.

(** X1. The projected output is the largest output the pair accepts for
    the input: with it the fee-adjusted product of the balances does not
    fall below the product of the reserves (the check of the pair's
    [swap]), and with one unit more it would. *)
Theorem calculateAmountOut_constant_product amountIn reserveIn reserveOut :
  0 < amountIn -> 0 < reserveIn -> 0 <= reserveOut ->
  exists out,
    calculateAmountOut amountIn reserveIn reserveOut = Ok out /\
    reserveIn * 1000 * reserveOut
      <= (reserveIn * 1000 + amountIn * 997) * (reserveOut - out) /\
    (reserveIn * 1000 + amountIn * 997) * (reserveOut - (out + 1))
      < reserveIn * 1000 * reserveOut.
Proof.
  intros Ha Hi Ho. rewrite calculateAmountOut_pos by lia.
  eexists. split; [reflexivity|].
  set (d := reserveIn * 1000 + amountIn * 997).
  set (n := amountIn * 997 * reserveOut).
  assert (0 < d) as Hd by (unfold d; lia).
  pose proof (Z.mul_div_le n d Hd) as Hle.
  pose proof (Z.mul_succ_div_gt n d Hd) as Hgt.
  assert (d * reserveOut = reserveIn * 1000 * reserveOut + n) as Hsplit
    by (unfold d, n; ring).
  split; nia.
Qed.

Lemma calculateAmountOut_constant_product_witness :
  exists out,
    calculateAmountOut 1000 50000 80000 = Ok out /\
    50000 * 1000 * 80000 <= (50000 * 1000 + 1000 * 997) * (80000 - out) /\
    (50000 * 1000 + 1000 * 997) * (80000 - (out + 1)) < 50000 * 1000 * 80000.
Proof. apply (calculateAmountOut_constant_product 1000 50000 80000); lia. Defined.

Lemma inject_Z_pos z : 0 < z -> (0 < inject_Z z)%Q.
Proof. intros Hz. change 0%Q with (inject_Z 0). now rewrite <- Zlt_Qlt. Qed.

Lemma inject_Z_nonneg z : 0 <= z -> (0 <= inject_Z z)%Q.
Proof. intros Hz. change 0%Q with (inject_Z 0). now rewrite <- Zle_Qle. Qed.

(** The ratio of the impact formula, between -1 and 0. *)
Lemma price_ratio_range before after :
  (0 < before)%Q -> (0 <= after)%Q -> (after <= before)%Q ->
  (-1 <= (after - before) / before <= 0)%Q.
Proof.
  intros Hb Ha Hab. split.
  - apply Qle_shift_div_l; [assumption|]. lra.
  - apply Qle_shift_div_r; [assumption|]. lra.
Qed.

(** With something to swap against two reserves the impact formula is
    evaluated, and its value lies between 0 and 100. *)
Lemma priceImpact_formula_range amountIn reserveIn reserveOut :
  0 < amountIn -> 0 < reserveIn -> 0 < reserveOut ->
  exists impact,
    calculatePriceImpact amountIn reserveIn reserveOut = Ok impact /\
    (0 <= impact <= 100)%Q.
Proof.
  intros Ha Hi Ho. unfold calculatePriceImpact.
  destruct (Z.eqb_spec amountIn 0) as [->|_]; [lia|].
  destruct (Z.eqb_spec reserveIn 0) as [->|_]; [lia|].
  destruct (Z.eqb_spec reserveOut 0) as [->|_]; [lia|].
  cbn [orb]. cbv zeta.
  rewrite BigInt_div_pos by nia.
  destruct (amountOut_range amountIn reserveIn reserveOut) as [Hlo Hhi]; try lia.
  set (out := amountIn * 997 * reserveOut / (reserveIn * 1000 + amountIn * 997)) in *.
  eexists. split; [reflexivity|].
  set (before := (BigInt.toNumber reserveOut / BigInt.toNumber reserveIn)%Q).
  set (after := (BigInt.toNumber (reserveOut - out)
                 / BigInt.toNumber (reserveIn + amountIn))%Q).
  assert (0 < before)%Q as Hb.
  { unfold before, BigInt.toNumber. apply Qlt_shift_div_l.
    - apply inject_Z_pos. lia.
    - rewrite Qmult_0_l. apply inject_Z_pos. lia. }
  assert (0 <= after)%Q as Haft.
  { unfold after, BigInt.toNumber. apply Qle_shift_div_l.
    - apply inject_Z_pos. lia.
    - rewrite Qmult_0_l. apply inject_Z_nonneg. lia. }
  assert (after <= before)%Q as Hab.
  { unfold after, before, BigInt.toNumber.
    apply Qle_shift_div_r; [apply inject_Z_pos; lia|].
    unfold Qdiv. rewrite <- Qmult_assoc, (Qmult_comm (/ _)), Qmult_assoc.
    apply Qle_shift_div_l; [apply inject_Z_pos; lia|].
    rewrite <- !inject_Z_mult, <- Zle_Qle. nia. }
  destruct (price_ratio_range before after Hb Haft Hab) as [Hr1 Hr2].
  set (ratio := ((after - before) / before)%Q) in *.
  assert (Qabs ratio <= 1)%Q as Habs by (apply Qabs_Qle_condition; split; lra).
  pose proof (Qabs_nonneg ratio). split; lra.
Qed.

Lemma priceImpact_range amountIn reserveIn reserveOut :
  0 <= amountIn -> 0 <= reserveIn -> 0 <= reserveOut ->
  exists impact,
    calculatePriceImpact amountIn reserveIn reserveOut = Ok impact /\
    (0 <= impact <= 100)%Q.
Proof.
  intros Ha Hi Ho.
  destruct (Z.eq_dec amountIn 0) as [Ea|Na];
    [exists 0%Q; split; [apply calculatePriceImpact_zero; auto|lra]|].
  destruct (Z.eq_dec reserveIn 0) as [Ei|Ni];
    [exists 0%Q; split; [apply calculatePriceImpact_zero; auto|lra]|].
  destruct (Z.eq_dec reserveOut 0) as [Eo|No];
    [exists 0%Q; split; [apply calculatePriceImpact_zero; auto|lra]|].
  apply priceImpact_formula_range; lia.
Qed.

(** X2. On an amount and reserves that are not negative the price impact
    is a percentage: it lies between 0 and 100, whatever the size of the
    trade against the pool. *)
Theorem calculatePriceImpact_percentage amountIn reserveIn reserveOut :
  0 <= amountIn -> 0 <= reserveIn -> 0 <= reserveOut ->
  exists impact,
    calculatePriceImpact amountIn reserveIn reserveOut = Ok impact /\
    (0 <= impact)%Q /\ (impact <= 100)%Q.
Proof.
  intros Ha Hi Ho.
  destruct (priceImpact_range amountIn reserveIn reserveOut Ha Hi Ho)
    as (impact & E & Hlo & Hhi).
  exists impact. repeat split; assumption.
Qed.

Lemma calculatePriceImpact_percentage_witness :
  exists impact,
    calculatePriceImpact 5000 1000000 1000000 = Ok impact /\
    (0 <= impact)%Q /\ (impact <= 100)%Q.
Proof. apply (calculatePriceImpact_percentage 5000 1000000 1000000); lia. Defined.

Lemma slippageBands_basis_points cfg priceImpact :
  (0 <= priceImpact <= 100)%Q ->
  0 <= MIN_SLIPPAGE_BPS cfg <= 10000 -> 0 <= MAX_SLIPPAGE_BPS cfg ->
  0 <= slippageBands cfg priceImpact <= 10000.
Proof.
  intros [Hlo Hhi] Hmin Hmax. unfold slippageBands.
  destruct (Qltb priceImpact (1 # 2)); [lia|].
  destruct (Qltb priceImpact 2); [lia|].
  destruct (Qltb priceImpact 5); [lia|].
  destruct (Qltb priceImpact 10) eqn:E; [lia|].
  apply Qltb_ge in E.
  assert (1000 <= Qceiling (priceImpact * 100)).
  { change 1000 with (Qceiling (inject_Z 1000)) at 1.
    apply Qceiling_resp_le. unfold inject_Z. lra. }
  assert (Qceiling (priceImpact * 100) <= 10000).
  { change 10000 with (Qceiling (inject_Z 10000)).
    apply Qceiling_resp_le. unfold inject_Z. lra. }
  lia.
Qed.

Lemma dynamicSlippage_basis_points cfg reserveIn reserveOut amountIn :
  0 <= amountIn -> 0 <= reserveIn -> 0 <= reserveOut ->
  0 <= SLIPPAGE_BPS cfg <= 10000 ->
  0 <= MIN_SLIPPAGE_BPS cfg <= 10000 -> 0 <= MAX_SLIPPAGE_BPS cfg ->
  exists tolerance,
    calculateDynamicSlippage cfg reserveIn reserveOut amountIn = Ok tolerance /\
    0 <= tolerance <= 10000.
Proof.
  intros Ha Hi Ho Hs Hmin Hmax. unfold calculateDynamicSlippage.
  destruct (ENABLE_DYNAMIC_SLIPPAGE cfg); cbn; [|eauto].
  destruct (priceImpact_range amountIn reserveIn reserveOut Ha Hi Ho)
    as (impact & -> & Hrange).
  eexists. split; [reflexivity|]. now apply slippageBands_basis_points.
Qed.

(** X3. Whatever [MAX_SLIPPAGE_BPS] is set to, the dynamic tolerance never
    exceeds 10000 basis points, since a price impact is at most 100
    percent: with a minimum and a static default between 0 and 10000 (and
    a maximum that is not negative) the tolerance lies between 0 and
    10000 in both modes. *)
Theorem calculateDynamicSlippage_at_most_all cfg reserveIn reserveOut amountIn :
  0 <= amountIn -> 0 <= reserveIn -> 0 <= reserveOut ->
  0 <= SLIPPAGE_BPS cfg <= 10000 ->
  0 <= MIN_SLIPPAGE_BPS cfg <= 10000 -> 0 <= MAX_SLIPPAGE_BPS cfg ->
  exists tolerance,
    calculateDynamicSlippage cfg reserveIn reserveOut amountIn = Ok tolerance /\
    0 <= 10000 - tolerance <= 10000.
Proof.
  intros Ha Hi Ho Hs Hmin Hmax.
  destruct (dynamicSlippage_basis_points cfg reserveIn reserveOut amountIn)
    as (tolerance & E & Hrange); try assumption.
  exists tolerance. split; [assumption|lia].
Qed.

Lemma calculateDynamicSlippage_at_most_all_witness :
  exists tolerance,
    calculateDynamicSlippage (default_config true) 1000000 1000000 900000
    = Ok tolerance /\
    0 <= 10000 - tolerance <= 10000.
Proof.
  apply (calculateDynamicSlippage_at_most_all (default_config true)
           1000000 1000000 900000); cbn; lia.
Defined.

(** X4. When the configured bounds enclose the fixed bands, a larger price
    impact never gets a smaller tolerance. *)
Theorem slippageBands_monotone cfg impact1 impact2 :
  MIN_SLIPPAGE_BPS cfg <= 100 -> 500 <= MAX_SLIPPAGE_BPS cfg ->
  (impact1 <= impact2)%Q ->
  slippageBands cfg impact1 <= slippageBands cfg impact2.
Proof.
  intros Hmin Hmax Hle. unfold slippageBands.
  assert (forall x, (10 <= x)%Q -> 1000 <= Qceiling (x * 100)) as Hceil.
  { intros x Hx. change 1000 with (Qceiling (inject_Z 1000)) at 1.
    apply Qceiling_resp_le. unfold inject_Z. lra. }
  assert (Qceiling (impact1 * 100) <= Qceiling (impact2 * 100)) as Hmono
    by (apply Qceiling_resp_le; lra).
  destruct (Qltb impact1 (1 # 2)) eqn:A1, (Qltb impact2 (1 # 2)) eqn:A2;
  destruct (Qltb impact1 2) eqn:B1, (Qltb impact2 2) eqn:B2;
  destruct (Qltb impact1 5) eqn:C1, (Qltb impact2 5) eqn:C2;
  destruct (Qltb impact1 10) eqn:D1, (Qltb impact2 10) eqn:D2;
  rewrite ?Qltb_lt, ?Qltb_ge in *;
  try lia; try lra;
  try (specialize (Hceil impact2 ltac:(assumption)); lia).
Qed.

Lemma slippageBands_monotone_witness :
  slippageBands (default_config true) (3 # 10) <= slippageBands (default_config true) 12.
Proof.
  apply (slippageBands_monotone (default_config true) (3 # 10) 12); cbn; try lia.
  unfold Qle. cbn. lia.
Defined.

End Projection.

(** ** Amounts of a zap-in and of a zap-out *)

Section ZapAmounts.

Lemma scaled_down amount multiplier :
  0 <= amount -> 0 <= multiplier <= 10000 ->
  exists scaled,
    BigInt.div (amount * multiplier) 10000 = Ok scaled /\ 0 <= scaled <= amount.
Proof.
  intros Ha Hm. rewrite BigInt_div_pos by nia.
  eexists. split; [reflexivity|]. split.
  - apply Z.div_pos; nia.
  - apply Z.div_le_upper_bound; nia.
Qed.

(** X5. The amounts of a zap-in, for an amount and reserves that are not
    negative and tolerances configured between 0 and 10000 basis points:
    half of the amount is swapped (rounded down), and the two minimum
    amounts handed to the contract are not negative and do not exceed what
    they are the minimum of, the swapped half and the projected output,
    which itself does not exceed the token reserve. *)
Theorem zapInAmounts_minimums cfg reserveWETH reserveToken amountIn :
  0 <= amountIn -> 0 <= reserveWETH -> 0 <= reserveToken ->
  0 <= SLIPPAGE_BPS cfg <= 10000 ->
  0 <= MIN_SLIPPAGE_BPS cfg <= 10000 -> 0 <= MAX_SLIPPAGE_BPS cfg ->
  exists amounts,
    zapInAmounts cfg reserveWETH reserveToken amountIn = Ok amounts /\
    2 * amountToSwap amounts <= amountIn < 2 * amountToSwap amounts + 2 /\
    0 <= amountAMin amounts <= amountToSwap amounts /\
    0 <= amountBMin amounts <= expectedAmountToken amounts /\
    expectedAmountToken amounts <= reserveToken.
Proof.
  intros Ha Hw Ht Hs Hmin Hmax. unfold zapInAmounts.
  rewrite BigInt_div_pos by lia.
  set (half := amountIn / 2).
  assert (0 <= half /\ 2 * half <= amountIn < 2 * half + 2) as [Hhalf Hsplit].
  { unfold half. pose proof (Z.div_mod amountIn 2 ltac:(lia)).
    pose proof (Z.mod_pos_bound amountIn 2 ltac:(lia)).
    split; [apply Z.div_pos; lia|lia]. }
  destruct (dynamicSlippage_basis_points cfg reserveWETH reserveToken half)
    as (tolerance & -> & Htol); try assumption.
  assert (exists out, calculateAmountOut half reserveWETH reserveToken = Ok out /\
                      0 <= out <= reserveToken) as (out & -> & Hout).
  { destruct (Z.eq_dec half 0) as [->|Hne].
    - exists 0. split; [reflexivity|lia].
    - rewrite calculateAmountOut_pos by lia.
      eexists. split; [reflexivity|]. split.
      + apply Z.div_pos; nia.
      + apply Z.div_le_upper_bound; nia. }
  destruct (scaled_down half (10000 - tolerance)) as (aMin & -> & HaMin); try lia.
  destruct (scaled_down out (10000 - tolerance)) as (bMin & -> & HbMin); try lia.
  eexists. split; [reflexivity|]. cbn. repeat split; lia.
Qed.

Lemma zapInAmounts_minimums_witness :
  exists amounts,
    zapInAmounts (default_config true) 1000000 1000000 10001 = Ok amounts /\
    2 * amountToSwap amounts <= 10001 < 2 * amountToSwap amounts + 2 /\
    0 <= amountAMin amounts <= amountToSwap amounts /\
    0 <= amountBMin amounts <= expectedAmountToken amounts /\
    expectedAmountToken amounts <= 1000000.
Proof.
  apply (zapInAmounts_minimums (default_config true) 1000000 1000000 10001);
    cbn; lia.
Defined.

(** X6. The liquidity of a zap-out: for a balance that is not negative and
    a percentage from 0 to 100 it is not negative and does not exceed the
    balance, 100 percent is the whole balance, and a larger percentage
    never zaps less. *)
Theorem liquidityToZap_share lpBalance percentage larger :
  0 <= lpBalance -> 0 <= percentage -> percentage <= larger -> larger <= 100 ->
  exists liquidity more,
    liquidityToZap lpBalance percentage = Ok liquidity /\
    liquidityToZap lpBalance larger = Ok more /\
    0 <= liquidity /\ liquidity <= more /\ more <= lpBalance /\
    liquidityToZap lpBalance 100 = Ok lpBalance.
Proof.
  intros Hb Hp Hle H100. unfold liquidityToZap.
  rewrite !BigInt_div_pos by nia.
  do 2 eexists. split; [reflexivity|]. split; [reflexivity|]. repeat split.
  - apply Z.div_pos; nia.
  - apply Z.div_le_mono; nia.
  - apply Z.div_le_upper_bound; nia.
  - f_equal. apply Z.div_mul. lia.
Qed.

Lemma liquidityToZap_share_witness :
  exists liquidity more,
    liquidityToZap 1999 25 = Ok liquidity /\
    liquidityToZap 1999 75 = Ok more /\
    0 <= liquidity /\ liquidity <= more /\ more <= 1999 /\
    liquidityToZap 1999 100 = Ok 1999.
Proof. apply (liquidityToZap_share 1999 25 75); lia. Defined.

End ZapAmounts.

(** ** Zap-in *)

Section ZapInProperties.

Import ZapIn.

Variable getAddress : string -> string.
Variable cfg : Config.
Variable settings : ZapSettings.

Lemma validateBalance_Ok balance amountIn estimatedGasFee :
  validateBalance balance amountIn estimatedGasFee = Ok tt ->
  amountIn + estimatedGasFee <= balance.
Proof.
  unfold validateBalance. cbv zeta.
  destruct (Z.ltb_spec balance (amountIn + estimatedGasFee)); [discriminate|].
  intros _. assumption.
Qed.

(** The ledger file after an entry is the file before it, unless the pair
    data was read. *)
Lemma updateAndSavePosition_needs_pairInfo now getCachedPairInfo token ethAmount d :
  Ledger.positionsFile
    (snd (Ledger.updateAndSavePosition getAddress now getCachedPairInfo token
            ethAmount d))
  = Ledger.positionsFile d \/
  exists info, getCachedPairInfo = Ok info.
Proof.
  destruct getCachedPairInfo as [info|e]; [right; eauto|left].
  unfold Ledger.updateAndSavePosition, Ledger.loadPositions.
  unfold bind, lift, gets, log, modify, ret.
  destruct (Ledger.positionsFile d) eqn:E; cbn; now rewrite E.
Qed.

(** A text that passes the guard of [executeZapIn] reads as a positive
    number. *)
Lemma guard_positive x :
  F64.isNaN x || F64.leb x F64.zero = false -> F64.ltb F64.zero x = true.
Proof. destruct x as [[]|[]| |[] m e]; cbn; congruence. Qed.

(** The steps of the [try] from the call of the contract on. *)
Lemma after_zapInETH chat reads call savedAt token amount w :
  let rest :=
    (zapInETH reads call ;;
     lift (sentShown chat) ;;
     lift (receipt reads call) ;;
     on_disk (Ledger.updateAndSavePosition getAddress savedAt
                (pairInfoAfter reads) token amount) ;;
     lift (successShown chat))%async in
  calls (snd (rest w)) = calls w ++ [call] /\
  (Ledger.positionsFile (disk (snd (rest w))) = Ledger.positionsFile (disk w) \/
   exists info,
     sent reads call = Ok tt /\ sentShown chat = Ok tt /\
     receipt reads call = Ok tt /\ pairInfoAfter reads = Ok info).
Proof.
  cbv zeta. unfold bind, lift, zapInETH, on_disk.
  destruct (sent reads call) as [[]|e]; [|split; [reflexivity|left; reflexivity]].
  destruct (sentShown chat) as [[]|e]; [|split; [reflexivity|left; reflexivity]].
  destruct (receipt reads call) as [[]|e]; [|split; [reflexivity|left; reflexivity]].
  cbn [disk calls].
  destruct (updateAndSavePosition_needs_pairInfo savedAt (pairInfoAfter reads)
              token amount (disk w)) as [Hsame|[info Hinfo]].
  - destruct (Ledger.updateAndSavePosition _ _ _ _ _ _) as [[[]|e] d'];
      cbn in *; [destruct (successShown chat)|]; cbn; split; auto.
  - destruct (Ledger.updateAndSavePosition _ _ _ _ _ _) as [[[]|e] d'];
      cbn in *; [destruct (successShown chat)|]; cbn;
      (split; [reflexivity|right; eauto]).
Qed.

Lemma bind_lift_Ok {S A B} (a : A) (k : A -> M S B) s :
  bind (lift (Ok a)) k s = k a s.
Proof. reflexivity. Qed.

(** The steps of [executeZapIn] one after the other: a step that throws
    ends the run, as the goal at hand shows by computation. *)
Ltac zap_step r pat :=
  destruct r as pat; [rewrite bind_lift_Ok; cbv beta zeta|].

(** X7. [executeZapIn] calls the zapper contract at most once, and only
    after the balance check: the wallet balance it read covers the value
    of the call plus the gas limit estimate at the quoted gas price.  The
    value is the amount [parseEther] reads from the text, a text that
    [parseFloat] reads as a positive number, and the fee fields are those
    of the quote.  This holds whatever the messages to the chat come
    to. *)
Theorem executeZapIn_calls_when_funded now savedAt chat reads token ethAmount w :
  let w' := snd (executeZapIn getAddress cfg settings now savedAt chat reads
                   token ethAmount w) in
  calls w' = calls w \/
  exists call quote funds,
    calls w' = calls w ++ [call] /\
    txOptionsData reads = Ok quote /\
    balance reads = Ok funds /\
    value call + ZAP_IN_GAS_LIMIT_ESTIMATE settings * gasPrice quote <= funds /\
    asWei ethAmount = Ok (value call) /\
    F64.ltb F64.zero (asNumber ethAmount) = true /\
    call_gasLimit call = ZAP_IN_GAS_LIMIT_ESTIMATE settings /\
    call_maxFeePerGas call = maxFeePerGas quote /\
    call_maxPriorityFeePerGas call = maxPriorityFeePerGas quote.
Proof.
  intros w'. subst w'. unfold executeZapIn.
  destruct (F64.isNaN _ || F64.leb _ _) eqn:Eguard; [left; reflexivity|].
  apply guard_positive in Eguard.
  destruct (asWei ethAmount) as [amountIn|e] eqn:Eparse;
    [rewrite bind_lift_Ok|left; reflexivity].
  zap_step (preparingShown chat) ipattern:([[]|e]); [|left; reflexivity].
  unfold try_catch.
  zap_step (pairInfo reads) ipattern:([info|e]); [|left; reflexivity].
  zap_step (reserves reads) ipattern:([oriented|e]); [|left; reflexivity].
  zap_step (zapInAmounts cfg (fst oriented) (snd oriented) amountIn)
           ipattern:([amounts|e]); [|left; reflexivity].
  destruct (txOptionsData reads) as [quote|e] eqn:Equote;
    [rewrite bind_lift_Ok; cbv beta zeta|left; reflexivity].
  destruct (balance reads) as [funds|e] eqn:Ebalance;
    [rewrite bind_lift_Ok; cbv beta zeta|left; reflexivity].
  destruct (validateBalance funds amountIn _) as [[]|e] eqn:Efunds;
    [rewrite bind_lift_Ok|left; reflexivity].
  apply validateBalance_Ok in Efunds.
  zap_step (sendingShown chat) ipattern:([[]|e]); [|left; reflexivity].
  match goal with
  | |- context [zapInETH reads ?c] =>
      destruct (after_zapInETH chat reads c savedAt token (asNumber ethAmount) w)
        as [Hcalls _];
      right; exists c, quote, funds
  end.
  cbv zeta in Hcalls.
  destruct (bind (zapInETH _ _) _ w) as [[[]|e] w'] eqn:Erun;
    [|destruct (failureShown chat)]; cbn [snd] in *; repeat split; assumption.
Qed.

(** X8. [executeZapIn] changes the ledger file only after a call of the
    zapper contract that was sent and whose receipt arrived, and after the
    pair data was read again.  What fails inside the [try] is caught: the
    function rejects only with an error of one of the steps outside it,
    which are the message of the guard, [parseEther] of the amount (a text
    such as ['1e-3'] passes the guard of [parseFloat] and [parseEther]
    throws), the message before the [try] and the message of the [catch]
    handler; when these go through it returns. *)
Theorem executeZapIn_records_confirmed now savedAt chat reads token ethAmount w :
  let run := executeZapIn getAddress cfg settings now savedAt chat reads token
               ethAmount w in
  (Ledger.positionsFile (disk (snd run)) = Ledger.positionsFile (disk w) \/
   exists call info,
     calls (snd run) = calls w ++ [call] /\
     sent reads call = Ok tt /\
     sentShown chat = Ok tt /\
     receipt reads call = Ok tt /\
     pairInfoAfter reads = Ok info) /\
  (forall e,
     fst run = Throw e ->
     invalidShown chat = Throw e \/ asWei ethAmount = Throw e \/
     preparingShown chat = Throw e \/ failureShown chat = Throw e) /\
  (invalidShown chat = Ok tt ->
   preparingShown chat = Ok tt ->
   failureShown chat = Ok tt ->
   (exists amountIn, asWei ethAmount = Ok amountIn) ->
   fst run = Ok tt).
Proof.
  intros run. subst run. unfold executeZapIn.
  destruct (F64.isNaN _ || F64.leb _ _).
  { unfold lift. cbn. split; [left; reflexivity|]. split; [intros e ->; tauto|].
    intros ->. reflexivity. }
  destruct (asWei ethAmount) as [amountIn|e0]; [rewrite bind_lift_Ok|].
  2:{ cbn. split; [left; reflexivity|]. split.
      - intros e [= ->]. tauto.
      - intros _ _ _ [amountIn [=]]. }
  destruct (preparingShown chat) as [[]|e0]; [rewrite bind_lift_Ok|].
  2:{ cbn. split; [left; reflexivity|]. split.
      - intros e [= ->]. tauto.
      - intros _ [=]. }
  split; [|split].
  - unfold try_catch.
    zap_step (pairInfo reads) ipattern:([info|e]); [|left; reflexivity].
    zap_step (reserves reads) ipattern:([oriented|e]); [|left; reflexivity].
    zap_step (zapInAmounts cfg (fst oriented) (snd oriented) amountIn)
             ipattern:([amounts|e]); [|left; reflexivity].
    zap_step (txOptionsData reads) ipattern:([quote|e]); [|left; reflexivity].
    zap_step (balance reads) ipattern:([funds|e]); [|left; reflexivity].
    zap_step (validateBalance funds amountIn
                (ZAP_IN_GAS_LIMIT_ESTIMATE settings * gasPrice quote))
             ipattern:([[]|e]); [|left; reflexivity].
    zap_step (sendingShown chat) ipattern:([[]|e]); [|left; reflexivity].
    match goal with
    | |- context [zapInETH reads ?c] =>
        destruct (after_zapInETH chat reads c savedAt token (asNumber ethAmount) w)
          as [Hcalls [Hsame|(info' & Hsent & Hshown & Hreceipt & Hinfo)]];
        [left|right; exists c, info']
    end.
    + cbv zeta in Hsame.
      destruct (bind (zapInETH _ _) _ w) as [[[]|e] w'] eqn:Erun;
        [|destruct (failureShown chat)]; cbn [snd] in *; assumption.
    + cbv zeta in Hcalls.
      destruct (bind (zapInETH _ _) _ w) as [[[]|e] w'] eqn:Erun;
        [|destruct (failureShown chat)]; cbn [snd] in *; repeat split; assumption.
  - intros e. unfold try_catch, lift.
    destruct (bind _ _ w) as [[[]|e'] w'];
      cbn; [discriminate|]. intros ->. tauto.
  - intros _ _ Hfailure _. unfold try_catch, lift.
    destruct (bind _ _ w) as [[[]|e'] w'];
      cbn; [reflexivity|exact Hfailure].
Qed.

End ZapInProperties.

(** ** Quotes of the gas price resolver *)

Section QuoteProperties.

Context {S : Type} `{Console S}.
Variable cfg : Config.



Lemma toFixed9_min x y : toFixed9 (Qmin x y) = Z.min (toFixed9 x) (toFixed9 y).
Proof.
  unfold Qmin, GenericMinMax.gmin.
  destruct (Qcompare x y) eqn:C.
  - apply Qeq_alt in C.
    pose proof (toFixed9_mono x y ltac:(lra)). lia.
  - apply Qlt_alt in C.
    pose proof (toFixed9_mono x y ltac:(lra)). lia.
  - apply Qgt_alt in C.
    pose proof (toFixed9_mono y x ltac:(lra)). lia.
Qed.

(** The fields of a quote of the Etherscan tier, in terms of the price
    the tier selected. *)
Lemma fetchTxOptionsFromEtherscan_quote reply s quote s' :
  fetchTxOptionsFromEtherscan cfg reply s = (Ok quote, s') ->
  exists selected difference,
    gasPrice quote = maxFeePerGas quote /\
    maxFeePerGas quote = toFixed9 (Qmin selected (MAX_GAS_PRICE_GWEI cfg)) /\
    maxPriorityFeePerGas quote
    = toFixed9 (Qmin (Qmax (PRIORITY_FEE_GWEI cfg) difference)
                     (Qmin selected (MAX_GAS_PRICE_GWEI cfg))).
Proof.
  unfold fetchTxOptionsFromEtherscan.
  destruct reply as [e|status|message|sf pr fa base]; try discriminate.
  cbv zeta.
  set (chosen := match GAS_SPEED cfg with
                 | safe => sf | standard => pr | fast => fa
                 | instant => Num.mul fa (Fin (12 # 10)) | unrecognised => fa
                 end).
  destruct (Num.mul chosen (Fin (GAS_SPEED_MULTIPLIER cfg))) as [selected|];
    [|discriminate].
  destruct base as [b|]; [|cbn; destruct (Qle_bool _ _); discriminate].
  cbn [Num.sub Num.max Num.min].
  unfold bind, lift, log, modify, ret, parseUnits_toFixed9.
  destruct (Qle_bool exponent_above (Qabs (Qmin selected _))); [discriminate|].
  destruct (Qle_bool exponent_above (Qabs (Qmin (Qmax _ _) _))); [discriminate|].
  intros [= <- _]. exists selected, (selected - b)%Q. cbn. auto.
Qed.



(** X10. The Etherscan tier keeps the configured minimum priority fee:
    the priority fee of its quote is at least [PRIORITY_FEE_GWEI], unless
    the max fee of the quote is lower, and then it is the max fee. *)
Theorem fetchTxOptionsFromEtherscan_priority_floor reply s quote s' :
  fetchTxOptionsFromEtherscan cfg reply s = (Ok quote, s') ->
  Z.min (toFixed9 (PRIORITY_FEE_GWEI cfg)) (maxFeePerGas quote)
  <= maxPriorityFeePerGas quote.
Proof.
  intros E.
  destruct (fetchTxOptionsFromEtherscan_quote _ _ _ _ E)
    as (selected & difference & _ & -> & ->).
  rewrite <- toFixed9_min. apply toFixed9_mono.
  apply Q.min_le_compat_r, Q.le_max_l.
Qed.

(** X11. A reply of the gas oracle whose base fee, or whose price for the
    configured speed, is not a number is handled as a rejected request:
    the run of the resolver is the same. *)
Theorem fetchTxOptions_malformed_reply sf pr fa base rpc s :
  base = NaN \/
  match GAS_SPEED cfg with
  | safe => sf
  | standard => pr
  | fast | instant | unrecognised => fa
  end = NaN ->
  fetchTxOptions cfg (GasOracle sf pr fa base) rpc s
  = fetchTxOptions cfg (FetchRejected NumericFault) rpc s.
Proof.
  intros Hnan.
  assert (fetchTxOptionsFromEtherscan cfg (GasOracle sf pr fa base) s
          = (Throw NumericFault, s)) as E.
  { unfold fetchTxOptionsFromEtherscan. cbv zeta.
    destruct Hnan as [->|Hsel].
    - destruct (Num.mul _ (Fin (GAS_SPEED_MULTIPLIER cfg))) as [selected|];
        [|reflexivity].
      cbn [Num.sub Num.max Num.min]. unfold bind, lift, parseUnits_toFixed9.
      destruct (Qle_bool _ _); reflexivity.
    - destruct (GAS_SPEED cfg); rewrite Hsel; reflexivity. }
  unfold fetchTxOptions, attempt, try_catch, bind. rewrite E. reflexivity.
Qed.

Lemma fetchTxOptionsFromRPC_gasPrice reply s quote s' :
  fetchTxOptionsFromRPC cfg reply s = (Ok quote, s') ->
  gasPrice quote = maxFeePerGas quote.
Proof.
  unfold fetchTxOptionsFromRPC, bind, lift, log, modify, ret, throw.
  destruct reply as [e|feeData]; [discriminate|].
  destruct (truthy (FeeData.maxFeePerGas feeData)) as [feeMax|]; [|discriminate].
  destruct (parseUnits_toString (MAX_GAS_PRICE_GWEI cfg)) as [cap|]; [|discriminate].
  destruct (truthy (FeeData.maxPriorityFeePerGas feeData)) as [p|].
  - now intros [= <- _].
  - destruct (parseUnits_toString (PRIORITY_FEE_GWEI cfg)) as [p|]; [|discriminate].
    now intros [= <- _].
Qed.

(** With static constants that [parseUnits] accepts and a priority fee
    within the default gas price, the resolver returns an acceptable
    quote. *)
Lemma fetchTxOptions_acceptable etherscan rpc s defaultGasPrice defaultPriorityFee :
  parseUnits_toString (DEFAULT_GAS_PRICE_GWEI cfg) = Ok defaultGasPrice ->
  parseUnits_toString (PRIORITY_FEE_GWEI cfg) = Ok defaultPriorityFee ->
  (PRIORITY_FEE_GWEI cfg <= DEFAULT_GAS_PRICE_GWEI cfg)%Q ->
  exists quote s',
    fetchTxOptions cfg etherscan rpc s = (Ok quote, s') /\ acceptable quote.
Proof.
  intros Ed Ep Hle. pose proof (fetchTxOptions_tiers cfg etherscan rpc s) as T.
  assert (exists quote s', fetchTxOptions cfg etherscan rpc s = (Ok quote, s'))
    as (quote & s' & E).
  { destruct (fetchTxOptionsFromEtherscan cfg etherscan s) as [[q|e1] s1]; [eauto|].
    destruct (fetchTxOptionsFromRPC cfg rpc _) as [[q|e2] s2]; [eauto|].
    rewrite T, (defaultTxOptions_Ok _ _ _ _ Ed Ep). eauto. }
  exists quote, s'. split; [assumption|]. split.
  - eapply fetchTxOptions_priority_le_max; eassumption.
  - rewrite E in T.
    destruct (fetchTxOptionsFromEtherscan cfg etherscan s) as [[q|e1] s1] eqn:E1.
    + injection T as <- _.
      destruct (fetchTxOptionsFromEtherscan_quote _ _ _ _ E1) as (? & ? & Hg & _).
      exact Hg.
    + destruct (fetchTxOptionsFromRPC cfg rpc _) as [[q|e2] s2] eqn:E2.
      * injection T as <- _. eapply fetchTxOptionsFromRPC_gasPrice, E2.
      * rewrite (defaultTxOptions_Ok _ _ _ _ Ed Ep) in T. now injection T as -> _.
Qed.

End QuoteProperties.


Lemma fetchTxOptionsFromEtherscan_priority_floor_witness :
  Z.min (toFixed9 2) 22000000000 <= 2000000000.
Proof.
  exact (fetchTxOptionsFromEtherscan_priority_floor (default_config true)
           (GasOracle (Fin 15) (Fin 18) (Fin 22) (Fin (219 # 10)))
           ([] : list LogEntry) _ _ eq_refl).
Defined.

Lemma fetchTxOptions_malformed_reply_witness :
  fetchTxOptions (default_config true) (GasOracle (Fin 15) (Fin 18) NaN (Fin 21))
    rpc_down ([] : list LogEntry)
  = fetchTxOptions (default_config true) (FetchRejected NumericFault)
      rpc_down [].
Proof.
  apply (fetchTxOptions_malformed_reply (default_config true)).
  right. reflexivity.
Defined.

(** ** What the cache keeps and what it leaves alone *)

Section CacheFrame.

Context {V W : Type} `{Console W}.
Variable cfg : Config.
Variable key : string.

Local Abbreviation State := (Cache.State V W).
Local Abbreviation ttl := (CACHE_DURATION_SECONDS cfg * 1000).

(** The cache after a call: the entry of the key is replaced when the
    fetcher ran and returned, and nothing else changes. *)
Lemma getCachedData_cache now (f : M W V) (st : State) :
  Cache.apiCache (snd (Cache.getCachedData cfg now key f st))
  = if Cache.fresh cfg now (Cache.apiCache st !! key) then Cache.apiCache st
    else match fst (f (Cache.missed key st)) with
         | Ok v =>
             <[key := {| Cache.data := v; Cache.timestamp := now |}]>
               (Cache.apiCache st)
         | Throw _ => Cache.apiCache st
         end.
Proof.
  destruct (Cache.fresh cfg now (Cache.apiCache st !! key)) eqn:Hf.
  - destruct (Cache.apiCache st !! key) as [item|] eqn:Hc; [|discriminate].
    apply Z.ltb_lt in Hf.
    now rewrite (getCachedData_fresh cfg key now f st item Hc Hf).
  - destruct (f (Cache.missed key st)) as [[v|e] w'] eqn:Ef.
    + now rewrite (getCachedData_fetched cfg key now f st v w' Hf Ef).
    + destruct (Cache.apiCache st !! key) as [item|] eqn:Hc.
      * rewrite (getCachedData_stale cfg key now f st item e w' Hc);
          [reflexivity| |assumption].
        rewrite Hc. exact Hf.
      * now rewrite (getCachedData_propagates cfg key now f st e w' Hc Ef).
Qed.

(** X12. What a call fetched is served for the whole TTL: after a call at
    time [now] whose fetcher ran and returned a value, every call for the
    key less than the TTL later returns that value, whatever its fetcher,
    and changes nothing. *)
Theorem getCachedData_memoizes now later (f f' : M W V) (st : State) v w' :
  Cache.fresh cfg now (Cache.apiCache st !! key) = false ->
  f (Cache.missed key st) = (Ok v, w') ->
  later - now < ttl ->
  let st' := snd (Cache.getCachedData cfg now key f st) in
  Cache.getCachedData cfg later key f' st' = (Ok v, st').
Proof.
  intros Hf Ef Hlater st'. subst st'.
  rewrite (getCachedData_fetched cfg key now f st v w' Hf Ef). cbn [snd].
  change v with (Cache.data {| Cache.data := v; Cache.timestamp := now |}) at 2.
  apply getCachedData_fresh; cbn.
  - apply lookup_insert_eq.
  - assumption.
Qed.

(** X13. A call for one key leaves the entries of all other keys as they
    are, whatever the outcome. *)
Theorem getCachedData_other_keys now (f : M W V) (st : State) other :
  other <> key ->
  Cache.apiCache (snd (Cache.getCachedData cfg now key f st)) !! other
  = Cache.apiCache st !! other.
Proof.
  intros Hne. rewrite getCachedData_cache.
  destruct (Cache.fresh cfg now _); [reflexivity|].
  destruct (fst (f _)); [|reflexivity].
  apply lookup_insert_ne. congruence.
Qed.

(** X14. A fetcher that throws leaves the whole cache as it is; so a stale
    entry that was served keeps its old time stamp, and the next call at
    the same or a later time runs its fetcher again. *)
Theorem getCachedData_failure_keeps_cache now later (f : M W V) (st : State) e w' :
  f (Cache.missed key st) = (Throw e, w') ->
  let st' := snd (Cache.getCachedData cfg now key f st) in
  Cache.apiCache st' = Cache.apiCache st /\
  (Cache.fresh cfg now (Cache.apiCache st !! key) = false ->
   now <= later ->
   Cache.fresh cfg later (Cache.apiCache st' !! key) = false).
Proof.
  intros Ef st'. subst st'.
  assert (Cache.apiCache (snd (Cache.getCachedData cfg now key f st))
          = Cache.apiCache st) as Hsame.
  { rewrite getCachedData_cache, Ef. now destruct (Cache.fresh cfg now _). }
  split; [assumption|].
  intros Hstale Hlater. rewrite Hsame.
  destruct (Cache.apiCache st !! key) as [item|]; [|reflexivity].
  cbn in *. apply Z.ltb_ge. apply Z.ltb_ge in Hstale. lia.
Qed.

End CacheFrame.

Lemma getCachedData_memoizes_witness :
  Cache.getCachedData (default_config true) 9999 "ethPrice" (throw (Error "down"))
    {| Cache.apiCache :=
         {[ "ethPrice" := {| Cache.data := 7; Cache.timestamp := 0 |} ]};
       Cache.world := [(info, CacheMiss "ethPrice")] |}
  = (Ok 7,
     {| Cache.apiCache :=
          {[ "ethPrice" := {| Cache.data := 7; Cache.timestamp := 0 |} ]};
        Cache.world := [(info, CacheMiss "ethPrice")] |}).
Proof.
  exact (getCachedData_memoizes (V := Z) (W := list LogEntry)
           (default_config true) "ethPrice" 0 9999 (ret 7) (throw (Error "down"))
           {| Cache.apiCache := ∅; Cache.world := [] |} 7
           [(info, CacheMiss "ethPrice")] eq_refl eq_refl eq_refl).
Defined.

Lemma getCachedData_other_keys_witness :
  Cache.apiCache
    (snd (Cache.getCachedData (default_config true) 20000 "txOptions" (ret 9)
            {| Cache.apiCache :=
                 {[ "ethPrice" := {| Cache.data := 7; Cache.timestamp := 0 |} ]};
               Cache.world := ([] : list LogEntry) |}))
    !! "ethPrice"
  = Some {| Cache.data := 7; Cache.timestamp := 0 |}.
Proof.
  exact (getCachedData_other_keys (V := Z) (W := list LogEntry)
           (default_config true) "txOptions" 20000 (ret 9)
           {| Cache.apiCache :=
                {[ "ethPrice" := {| Cache.data := 7; Cache.timestamp := 0 |} ]};
              Cache.world := [] |}
           "ethPrice" ltac:(discriminate)).
Defined.

Lemma getCachedData_failure_keeps_cache_witness :
  let st := {| Cache.apiCache :=
                 {[ "ethPrice" := {| Cache.data := 7; Cache.timestamp := 0 |} ]};
               Cache.world := ([] : list LogEntry) |} in
  let st' := snd (Cache.getCachedData (default_config true) 20000 "ethPrice"
                    (throw (Error "down")) st) in
  Cache.apiCache st' = Cache.apiCache st /\
  (Cache.fresh (default_config true) 20000 (Cache.apiCache st !! "ethPrice") = false ->
   20000 <= 30000 ->
   Cache.fresh (default_config true) 30000 (Cache.apiCache st' !! "ethPrice") = false).
Proof.
  exact (getCachedData_failure_keeps_cache (V := Z) (W := list LogEntry)
           (default_config true) "ethPrice" 20000 30000 (throw (Error "down"))
           {| Cache.apiCache :=
                {[ "ethPrice" := {| Cache.data := 7; Cache.timestamp := 0 |} ]};
              Cache.world := [] |}
           (Error "down") _ eq_refl).
Defined.

(** ** The resolver and the ETH price behind the cache *)

Section CachedReads.

Context {W : Type} `{Console W}.
Variable cfg : Config.

(** X15. With static constants that [parseUnits] accepts and a configured
    priority fee within the configured default gas price,
    [getCachedTxOptions] never fails, not even on an empty cache with both
    upstream tiers failing, and it keeps the cache to acceptable quotes
    (priority fee within max fee, gas price equal to max fee): if the
    quote in the cache is acceptable, so are the quote returned and the
    quote in the cache afterwards. *)
Theorem getCachedTxOptions_acceptable now etherscan rpc
    (st : Cache.State TxOptions W) defaultGasPrice defaultPriorityFee :
  parseUnits_toString (DEFAULT_GAS_PRICE_GWEI cfg) = Ok defaultGasPrice ->
  parseUnits_toString (PRIORITY_FEE_GWEI cfg) = Ok defaultPriorityFee ->
  (PRIORITY_FEE_GWEI cfg <= DEFAULT_GAS_PRICE_GWEI cfg)%Q ->
  (forall item,
     Cache.apiCache st !! "txOptions" = Some item ->
     acceptable (Cache.data item)) ->
  exists quote st',
    getCachedTxOptions cfg now etherscan rpc st = (Ok quote, st') /\
    acceptable quote /\
    (forall item,
       Cache.apiCache st' !! "txOptions" = Some item ->
       acceptable (Cache.data item)).
Proof.
  intros Ed Ep Hle Hinv. unfold getCachedTxOptions.
  destruct (Cache.fresh cfg now (Cache.apiCache st !! "txOptions")) eqn:Hf.
  - destruct (Cache.apiCache st !! "txOptions") as [item|] eqn:Hc; [|discriminate].
    apply Z.ltb_lt in Hf.
    rewrite (getCachedData_fresh cfg "txOptions" now _ st item Hc Hf).
    exists (Cache.data item), st.
    split; [reflexivity|]. split; [now apply Hinv|].
    intros item' Hitem. apply Hinv. congruence.
  - destruct (fetchTxOptions_acceptable cfg etherscan rpc
                (Cache.missed "txOptions" st) _ _ Ed Ep Hle)
      as (quote & w' & Efetch & Hq).
    rewrite (getCachedData_fetched cfg "txOptions" now _ st quote w' Hf Efetch).
    do 2 eexists. split; [reflexivity|]. split; [assumption|].
    intros item. cbn. rewrite lookup_insert_eq. now intros [= <-].
Qed.

(** X16. [getCachedEthPriceInUsd] never throws, and since the fetcher
    answers every failure by 0, a failed refresh is not covered by the
    stale price: it returns 0, and the 0 it stored is served until the TTL
    has passed, whatever the service answers by then. *)
Theorem getCachedEthPriceInUsd_caches_failure now later reply reply'
    (st : Cache.State Number W) :
  (exists price st',
     getCachedEthPriceInUsd cfg now reply st = (Ok price, st')) /\
  (Cache.fresh cfg now (Cache.apiCache st !! "ethPrice") = false ->
   (forall ethusd, reply <> EthPrice ethusd) ->
   later - now < CACHE_DURATION_SECONDS cfg * 1000 ->
   let st' := snd (getCachedEthPriceInUsd cfg now reply st) in
   fst (getCachedEthPriceInUsd cfg now reply st) = Ok (Fin 0) /\
   fst (getCachedEthPriceInUsd cfg later reply' st') = Ok (Fin 0)).
Proof.
  unfold getCachedEthPriceInUsd. split.
  - destruct (Cache.fresh cfg now (Cache.apiCache st !! "ethPrice")) eqn:Hf.
    + destruct (Cache.apiCache st !! "ethPrice") as [item|] eqn:Hc; [|discriminate].
      apply Z.ltb_lt in Hf.
      rewrite (getCachedData_fresh cfg "ethPrice" now _ st item Hc Hf).
      do 2 eexists. reflexivity.
    + rewrite (getCachedData_fetched cfg "ethPrice" now _ st
                 (fetchEthPriceInUsd reply) _ Hf eq_refl).
      do 2 eexists. reflexivity.
  - intros Hf Hfail Hlater. cbv zeta.
    assert (fetchEthPriceInUsd reply = Fin 0) as Ezero.
    { destruct reply as [e|status|message|ethusd]; try reflexivity.
      now destruct (Hfail ethusd). }
    rewrite (getCachedData_fetched cfg "ethPrice" now _ st
               (fetchEthPriceInUsd reply) _ Hf eq_refl).
    rewrite Ezero. cbn [fst snd]. split; [reflexivity|].
    rewrite (getCachedData_fresh cfg "ethPrice" later _ _
               {| Cache.data := Fin 0; Cache.timestamp := now |});
      [reflexivity| |]; cbn.
    + apply lookup_insert_eq.
    + assumption.
Qed.

End CachedReads.

Lemma getCachedTxOptions_acceptable_witness :
  exists quote st',
    getCachedTxOptions (default_config true) 5000 etherscan_down rpc_down
      {| Cache.apiCache := ∅; Cache.world := ([] : list LogEntry) |}
    = (Ok quote, st') /\
    acceptable quote /\
    (forall item,
       Cache.apiCache st' !! "txOptions" = Some item ->
       acceptable (Cache.data item)).
Proof.
  apply (getCachedTxOptions_acceptable (default_config true) 5000 etherscan_down
           rpc_down {| Cache.apiCache := ∅; Cache.world := [] |}
           30000000000 2000000000 eq_refl eq_refl).
  - unfold Qle. cbn. lia.
  - intros item Hitem. discriminate Hitem.
Defined.

(** The cache holds a price of 3000 that is twenty seconds old when the
    price service answers 503: 0 is returned, and five seconds later 0 is
    returned again although the service is back. *)
Lemma getCachedEthPriceInUsd_caches_failure_witness :
  let st := {| Cache.apiCache :=
                 {[ "ethPrice" := {| Cache.data := Fin 3000; Cache.timestamp := 0 |} ]};
               Cache.world := ([] : list LogEntry) |} in
  let st' := snd (getCachedEthPriceInUsd (default_config true) 20000
                    (PriceHttpNotOk 503) st) in
  fst (getCachedEthPriceInUsd (default_config true) 20000 (PriceHttpNotOk 503) st)
  = Ok (Fin 0) /\
  fst (getCachedEthPriceInUsd (default_config true) 25000 (EthPrice (Fin 3100)) st')
  = Ok (Fin 0).
Proof.
  apply (proj2 (getCachedEthPriceInUsd_caches_failure (W := list LogEntry)
                  (default_config true) 20000 25000 (PriceHttpNotOk 503)
                  (EthPrice (Fin 3100))
                  {| Cache.apiCache :=
                       {[ "ethPrice" :=
                            {| Cache.data := Fin 3000; Cache.timestamp := 0 |} ]};
                     Cache.world := [] |})).
  - reflexivity.
  - intros ethusd. discriminate.
  - reflexivity.
Defined.

(** ** The ledger on disk *)

Section LedgerOnDisk.

Import Ledger.

Variable getAddress : string -> string.

(** X17. Saving and loading again.  On a disk that accepts the write,
    [loadPositions] returns the positions that were saved.  When the write
    is rejected at the open, it returns what it returned before the save.
    When the write is rejected after the open, which truncated the file,
    it returns the empty ledger, whatever the file held and whatever was to
    be saved.  Neither of the two functions ever throws, so the loss is
    not reported. *)
Theorem savePositions_loadPositions positions d :
  fst (savePositions positions d) = Ok tt /\
  fst (loadPositions (snd (savePositions positions d)))
  = Ok match writeError d, writeFault d with
       | None, _ => positions
       | Some _, AtOpen => ledger d
       | Some _, AfterOpen => []
       end.
Proof.
  destruct (writeError d) as [e|] eqn:Ew.
  - rewrite (savePositions_failed _ _ _ Ew). split; [reflexivity|].
    cbn [snd]. unfold loadPositions, bind, gets, log, modify, ret.
    unfold left_by_failed_write, ledger. cbn.
    destruct (writeFault d); [destruct (positionsFile d)|]; reflexivity.
  - rewrite (savePositions_written _ _ Ew). split; reflexivity.
Qed.

(** What is in the file after an entry: the file as it was, or the ledger
    that [updateAndSavePosition] computes from it. *)
Lemma updateAndSavePosition_file now getCachedPairInfo token ethAmount d :
  let file' :=
    positionsFile
      (snd (updateAndSavePosition getAddress now getCachedPairInfo token
              ethAmount d)) in
  file' = positionsFile d \/
  file' = None \/
  exists info,
    getCachedPairInfo = Ok info /\
    writeError d = None /\
    file' = Some
      (let positions := match positionsFile d with Some ps => ps | None => [] end in
       match findIndex getAddress token positions with
       | Some existingIndex =>
           alter (fun pos => merge pos ethAmount (marketCap info) now)
                 existingIndex positions
       | None =>
           positions ++
             [{| tokenAddress := token;
                 pairAddress := pi_pairAddress info;
                 initialEthValue := ethAmount;
                 initialMarketCap := marketCap info;
                 timestamp := now |}]
       end).
Proof.
  intros file'. subst file'.
  destruct getCachedPairInfo as [info|e].
  - destruct (writeError d) as [we|] eqn:Ew.
    + assert (positionsFile
                (snd (updateAndSavePosition getAddress now (Ok info) token
                        ethAmount d))
              = left_by_failed_write d) as ->.
      { unfold updateAndSavePosition, loadPositions.
        unfold bind, lift, gets, log, modify, ret.
        destruct (positionsFile d) as [ps|] eqn:Ef; cbn;
          [destruct (findIndex getAddress token ps)|];
          rewrite savePositions_failed with (e := we) by exact Ew; cbn;
          unfold left_by_failed_write; cbn; now rewrite Ef. }
      unfold left_by_failed_write. destruct (writeFault d); auto.
    + right. right. exists info. split; [reflexivity|]. split; [reflexivity|].
      destruct (positionsFile d) as [ps|] eqn:Ef.
      * now rewrite (updateAndSavePosition_written getAddress _ _ _ _ _ _ Ef Ew).
      * unfold updateAndSavePosition, bind at 1.
        rewrite (loadPositions_missing _ Ef). unfold bind, lift.
        destruct (findIndex _ _ _); now rewrite savePositions_written.
  - left. unfold updateAndSavePosition, loadPositions.
    unfold bind, lift, gets, log, modify, ret.
    destruct (positionsFile d) eqn:E; cbn; now rewrite E.
Qed.

(** X18. When the pair data cannot be read, [updateAndSavePosition] throws
    the error of the read and leaves the ledger file as it was. *)
Theorem updateAndSavePosition_pairInfo_fails now e token ethAmount d :
  let run := updateAndSavePosition getAddress now (Throw e) token ethAmount d in
  fst run = Throw e /\
  positionsFile (snd run) = positionsFile d /\
  writeError (snd run) = writeError d.
Proof.
  intros run. subst run. unfold updateAndSavePosition, loadPositions.
  unfold bind, lift, gets, log, modify, ret.
  destruct (positionsFile d) eqn:E; cbn; rewrite ?E; auto.
Qed.

(** What is in the file after the zap-out callback: the file as it was,
    or, after a confirmed exit of 100 percent of a position on a disk that
    accepts the write, the ledger without the position at the index. *)
Lemma execute_zapout_file percentage zapOut positionIndex d :
  let file' :=
    positionsFile (snd (execute_zapout percentage zapOut positionIndex d)) in
  file' = positionsFile d \/
  file' = None \/
  exists positions position,
    positionsFile d = Some positions /\
    at_index positions positionIndex = Some position /\
    percentage = 100 /\ zapOut = Ok tt /\ writeError d = None /\
    file' = Some (splice1 positionIndex positions).
Proof.
  intros file'. subst file'.
  destruct (positionsFile d) as [positions|] eqn:Ef.
  - destruct (at_index positions positionIndex) as [position|] eqn:Eat.
    + destruct zapOut as [[]|e].
      * destruct (writeError d) as [we|] eqn:Ew.
        -- assert (positionsFile
                     (snd (execute_zapout percentage (Ok tt) positionIndex d))
                   = left_by_failed_write d) as ->.
           { unfold execute_zapout, bind at 1.
             rewrite (loadPositions_file _ _ Ef), Eat.
             unfold try_catch, bind at 1. unfold lift, bind at 1, log, modify.
             unfold bind at 1.
             rewrite (loadPositions_file _ positions) by exact Ef.
             destruct (percentage =? 100); unfold bind;
               rewrite savePositions_failed with (e := we) by exact Ew;
               reflexivity. }
           unfold left_by_failed_write. destruct (writeFault d); auto.
        -- destruct (Z.eqb_spec percentage 100) as [->|Hne].
           ++ right. right. exists positions, position.
              rewrite (execute_zapout_written _ _ _ _ _ Ef Eat Ew).
              repeat split; assumption.
           ++ left.
              rewrite (execute_zapout_written _ _ _ _ _ Ef Eat Ew).
              now rewrite (proj2 (Z.eqb_neq _ _) Hne).
      * left. unfold execute_zapout, bind at 1.
        rewrite (loadPositions_file _ _ Ef), Eat.
        unfold try_catch, bind, lift, log, modify, ret. cbn. exact Ef.
    + left. unfold execute_zapout, bind at 1.
      rewrite (loadPositions_file _ _ Ef), Eat. cbn. exact Ef.
  - left. unfold execute_zapout, bind at 1.
    rewrite (loadPositions_missing _ Ef).
    unfold at_index. destruct (positionIndex <? 0); cbn; exact Ef.
Qed.

Lemma entry_one_per_token positions token merged added :
  (forall pos, identity getAddress (merged pos) = identity getAddress pos) ->
  identity getAddress added = getAddress token ->
  NoDup (identity getAddress <$> positions) ->
  NoDup (identity getAddress <$>
           match findIndex getAddress token positions with
           | Some existingIndex => alter merged existingIndex positions
           | None => positions ++ [added]
           end).
Proof.
  intros Hmerged Hadded Hnd.
  destruct (findIndex getAddress token positions) as [i|] eqn:Ei.
  - rewrite (list_fmap_alter (identity getAddress) _ (fun key => key)).
    + now rewrite list_alter_id.
    + apply Forall_forall. intros pos _. apply Hmerged.
  - rewrite fmap_app. apply NoDup_app. repeat split; [assumption| |].
    + intros key Hin Hnew. apply list_elem_of_fmap in Hin as (pos & -> & Hpos).
      apply list_elem_of_singleton in Hnew. rewrite Hadded in Hnew.
      pose proof (findIndex_None _ _ _ Ei) as Hall.
      rewrite Forall_forall in Hall. now apply (Hall pos Hpos).
    + apply NoDup_singleton.
Qed.

(** X19. One position per token.  A ledger without two positions of the
    same token (in canonical form) stays so through every entry and every
    zap-out callback, whatever the reads, the transaction and the write
    come to. *)
Theorem ledger_one_position_per_token d :
  NoDup (identity getAddress <$> ledger d) ->
  (forall now getCachedPairInfo token ethAmount,
     NoDup (identity getAddress <$>
              ledger (snd (updateAndSavePosition getAddress now
                             getCachedPairInfo token ethAmount d)))) /\
  (forall percentage zapOut positionIndex,
     NoDup (identity getAddress <$>
              ledger (snd (execute_zapout percentage zapOut positionIndex d)))).
Proof.
  intros Hnd. split.
  - intros now getCachedPairInfo token ethAmount.
    destruct (updateAndSavePosition_file now getCachedPairInfo token ethAmount d)
      as [Hsame|[Hnone|(info & _ & _ & Hfile)]]; unfold ledger in *.
    + now rewrite Hsame.
    + rewrite Hnone. constructor.
    + rewrite Hfile. cbv zeta. apply entry_one_per_token; auto.
  - intros percentage zapOut positionIndex.
    destruct (execute_zapout_file percentage zapOut positionIndex d)
      as [Hsame|[Hnone|(positions & position & Hfile & _ & _ & _ & _ & Hfile')]];
      unfold ledger in *.
    + now rewrite Hsame.
    + rewrite Hnone. constructor.
    + rewrite Hfile'. rewrite Hfile in Hnd. unfold splice1.
      rewrite list_fmap_delete.
      eapply sublist_NoDup; [eassumption|apply sublist_delete].
Qed.

Lemma loadPositions_ledger d :
  exists d',
    loadPositions d = (Ok (ledger d), d') /\
    positionsFile d' = positionsFile d /\
    writeError d' = writeError d /\
    writeFault d' = writeFault d.
Proof.
  unfold loadPositions, ledger, bind, gets, log, modify, ret.
  destruct (positionsFile d) eqn:E; eexists; (split; [reflexivity|]);
    cbn; rewrite ?E; auto.
Qed.

Lemma savePositions_run positions d :
  exists d', savePositions positions d = (Ok tt, d').
Proof.
  destruct (writeError d) as [e|] eqn:E.
  - rewrite savePositions_failed with (e := e) by exact E. eauto.
  - rewrite savePositions_written by exact E. eauto.
Qed.

(** The callback once the transaction is confirmed: the index it returns. *)
Lemma execute_zapout_confirmed percentage positionIndex d position :
  at_index (ledger d) positionIndex = Some position ->
  fst (execute_zapout percentage (Ok tt) positionIndex d)
  = Ok (if percentage =? 100 then Z.max 0 (positionIndex - 1) else positionIndex).
Proof.
  intros Eat. unfold execute_zapout. unfold bind at 1.
  destruct (loadPositions_ledger d) as (d1 & -> & _ & _). rewrite Eat.
  unfold try_catch, bind at 1, lift. unfold bind at 1, log, modify.
  unfold bind at 1.
  destruct (loadPositions_ledger (console_write (info, ZapOutConfirmed percentage) d1))
    as (d2 & -> & _ & _).
  destruct (percentage =? 100); unfold bind.
  - destruct (savePositions_run (splice1 positionIndex
                (ledger (console_write (info, ZapOutConfirmed percentage) d1))) d2)
      as (d3 & ->).
    reflexivity.
  - destruct (savePositions_run
                (ledger (console_write (info, ZapOutConfirmed percentage) d1)) d2)
      as (d3 & ->).
    reflexivity.
Qed.

(** The callback when the position is not found or the transaction
    fails. *)
Lemma execute_zapout_aborted percentage zapOut positionIndex d :
  at_index (ledger d) positionIndex = None \/ (exists e, zapOut = Throw e) ->
  exists d',
    execute_zapout percentage zapOut positionIndex d = (Ok positionIndex, d') /\
    positionsFile d' = positionsFile d.
Proof.
  intros Habort. unfold execute_zapout. unfold bind at 1.
  destruct (loadPositions_ledger d) as (d1 & -> & Hfile & _).
  destruct (at_index (ledger d) positionIndex) as [position|] eqn:Eat.
  - destruct Habort as [Hnone|[e ->]]; [discriminate|].
    unfold try_catch, bind, lift, log, modify, ret. cbn.
    eexists. split; [reflexivity|exact Hfile].
  - eexists. split; [reflexivity|exact Hfile].
Qed.

(** X21. The index the zap-out callback leaves in the session addresses a
    position of the ledger on disk, whenever the callback was entered on a
    position and the ledger on disk is not empty afterwards; this holds
    too when the write of a full exit failed. *)
Theorem execute_zapout_index percentage zapOut positionIndex d position :
  at_index (ledger d) positionIndex = Some position ->
  let run := execute_zapout percentage zapOut positionIndex d in
  exists index,
    fst run = Ok index /\
    0 <= index /\
    (ledger (snd run) <> [] -> index < Z.of_nat (length (ledger (snd run)))).
Proof.
  intros Eat run. subst run.
  assert (0 <= positionIndex < Z.of_nat (length (ledger d))) as Hrange.
  { unfold at_index in Eat.
    destruct (Z.ltb_spec positionIndex 0); [discriminate|].
    apply lookup_lt_Some in Eat. lia. }
  assert (exists index,
            fst (execute_zapout percentage zapOut positionIndex d) = Ok index /\
            0 <= index <= positionIndex) as (index & Hrun & Hindex).
  { destruct zapOut as [[]|e].
    - rewrite (execute_zapout_confirmed _ _ _ _ Eat).
      eexists. split; [reflexivity|]. destruct (percentage =? 100); lia.
    - destruct (execute_zapout_aborted percentage (Throw e) positionIndex d)
        as (d' & E & _); [right; eauto|].
      rewrite E. eexists. split; [reflexivity|]. lia. }
  exists index. split; [exact Hrun|]. split; [lia|].
  destruct (execute_zapout_file percentage zapOut positionIndex d)
    as [Hsame|[Hnone|(positions & pos & Hfile & Hat & -> & -> & Hw & Hfile')]].
  - assert (ledger (snd (execute_zapout percentage zapOut positionIndex d))
            = ledger d) as -> by (unfold ledger; now rewrite Hsame).
    lia.
  - unfold ledger. rewrite Hnone. intros Hne. now destruct Hne.
  - rewrite (execute_zapout_confirmed _ _ _ _ Eat) in Hrun.
    cbn [Z.eqb Pos.eqb] in Hrun. injection Hrun as <-.
    unfold ledger at 1 2. rewrite Hfile'.
    unfold ledger in Hrange. rewrite Hfile in Hrange.
    destruct (splice1_in_range _ _ _ Hat) as [Hl ->].
    rewrite <- delete_take_drop.
    intros Hne.
    assert (length (delete (Z.to_nat positionIndex) positions)
            = (length positions - 1)%nat) as Hlen
      by (apply length_delete; eauto).
    rewrite Hlen.
    destruct (delete (Z.to_nat positionIndex) positions) eqn:Edel;
      [now destruct Hne|].
    cbn in Hlen. lia.
Qed.

End LedgerOnDisk.

(** ** The zap-out callback and its messages *)

Section ZapOutCallback.

Import ZapOut.

Lemma bind_run {S A B} (m : M S A) (k : A -> M S B) s a s' :
  m s = (Ok a, s') -> bind m k s = k a s'.
Proof. intros E. unfold bind. now rewrite E. Qed.

Lemma bind_gets {S A B} (f : S -> A) (k : A -> M S B) s :
  bind (gets f) k s = k (f s) s.
Proof. reflexivity. Qed.

Lemma on_disk_loadPositions s :
  exists d1,
    on_disk Ledger.loadPositions s
    = (Ok (ledger (disk s)), {| disk := d1; positionIndex := positionIndex s |}) /\
    Ledger.positionsFile d1 = Ledger.positionsFile (disk s).
Proof.
  destruct (loadPositions_ledger (disk s)) as (d1 & Hload & Hfile & _).
  exists d1. split; [|exact Hfile]. unfold on_disk. now rewrite Hload.
Qed.

(** The callback up to its [try]. *)
Lemma execute_zapout_entered chat percentage zapOut s position :
  answered chat = Ok tt ->
  Ledger.at_index (ledger (disk s)) (positionIndex s) = Some position ->
  processingShown chat = Ok tt ->
  exists d1,
    Ledger.positionsFile d1 = Ledger.positionsFile (disk s) /\
    execute_zapout chat percentage zapOut s
    = try_catch
        (lift zapOut ;;
         log info (ZapOutConfirmed percentage) ;;
         newPositions <- on_disk Ledger.loadPositions ;;
         (if percentage =? 100 then
            setIndex (Z.max 0 (positionIndex s - 1)) ;;
            on_disk (Ledger.savePositions
                       (Ledger.splice1 (positionIndex s) newPositions))
          else
            on_disk (Ledger.savePositions newPositions)) ;;
         lift (successShown chat))%async
        (fun e => log error (ZapOutError e) ;; lift (failureShown chat))%async
        {| disk := d1; positionIndex := positionIndex s |}.
Proof.
  intros Hanswered Hat Hprocessing.
  destruct (on_disk_loadPositions s) as (d1 & Hload & Hfile).
  exists d1. split; [exact Hfile|].
  unfold execute_zapout. rewrite Hanswered, bind_lift_Ok.
  rewrite (bind_run _ _ _ _ _ Hload), bind_gets. cbn [positionIndex].
  now rewrite Hat, Hprocessing, bind_lift_Ok.
Qed.

(** The callback never reaches its [try]: the ledger file and the index
    are as they were. *)
Lemma execute_zapout_not_entered chat percentage zapOut s :
  (exists e, answered chat = Throw e) \/
  Ledger.at_index (ledger (disk s)) (positionIndex s) = None \/
  (exists e, processingShown chat = Throw e) ->
  exists r d1,
    execute_zapout chat percentage zapOut s
    = (r, {| disk := d1; positionIndex := positionIndex s |}) /\
    Ledger.positionsFile d1 = Ledger.positionsFile (disk s) /\
    (r = answered chat \/ r = notFoundShown chat \/ r = processingShown chat) /\
    (answered chat = Ok tt -> notFoundShown chat = Ok tt ->
     processingShown chat = Ok tt -> r = Ok tt).
Proof.
  intros Hout. unfold execute_zapout.
  destruct (answered chat) as [[]|e0] eqn:Ea.
  2:{ exists (Throw e0), (disk s). destruct s. cbn.
      repeat split; auto; congruence. }
  rewrite bind_lift_Ok.
  destruct (on_disk_loadPositions s) as (d1 & Hload & Hfile).
  rewrite (bind_run _ _ _ _ _ Hload), bind_gets. cbn [positionIndex].
  destruct (Ledger.at_index (ledger (disk s)) (positionIndex s))
    as [position|] eqn:Eat.
  - destruct Hout as [[e [=]]|[[=]|[e Hp]]]. rewrite Hp.
    exists (Throw e), d1. cbn. repeat split; auto; congruence.
  - exists (notFoundShown chat), d1. cbn. repeat split; auto.
Qed.

(** When every message goes out, the callback is its ledger side: the
    run of [Ledger.execute_zapout] from the session's index, which becomes
    the index it returns. *)
Lemma execute_zapout_delivered chat percentage zapOut s :
  answered chat = Ok tt -> notFoundShown chat = Ok tt ->
  processingShown chat = Ok tt -> successShown chat = Ok tt ->
  failureShown chat = Ok tt ->
  exists index,
    fst (Ledger.execute_zapout percentage zapOut (positionIndex s) (disk s))
    = Ok index /\
    execute_zapout chat percentage zapOut s
    = (Ok tt,
       {| disk :=
            snd (Ledger.execute_zapout percentage zapOut (positionIndex s)
                   (disk s));
          positionIndex := index |}).
Proof.
  intros Ha Hn Hp Hs Hf.
  unfold execute_zapout, Ledger.execute_zapout. rewrite Ha, Hn, Hp, Hs, Hf.
  destruct s as [d index]. cbn [disk positionIndex].
  unfold Ledger.loadPositions, Ledger.savePositions, Ledger.writeFile,
    on_disk, setIndex.
  unfold bind, lift, gets, try_catch, log, modify, ret.
  cbn [disk positionIndex].
  destruct (Ledger.positionsFile d) as [positions|] eqn:Ef; cbn;
    rewrite ?Ef; cbn;
    (destruct (Ledger.at_index _ index) as [position|]; cbn;
     [|eexists; split; reflexivity]);
    (destruct zapOut as [[]|e]; cbn; [|eexists; split; reflexivity]);
    rewrite ?Ef; cbn;
    destruct (percentage =? 100); cbn;
    destruct (Ledger.writeError d); cbn;
    eexists; split; reflexivity.
Qed.

(** Whatever the messages come to, the ledger file and the session's
    index after the callback are those before it or those of its ledger
    side. *)
Lemma execute_zapout_ledger_side chat percentage zapOut s :
  let run := execute_zapout chat percentage zapOut s in
  let side :=
    Ledger.execute_zapout percentage zapOut (positionIndex s) (disk s) in
  Ledger.positionsFile (disk (snd run)) = Ledger.positionsFile (disk s) /\
  positionIndex (snd run) = positionIndex s \/
  Ledger.positionsFile (disk (snd run)) = Ledger.positionsFile (snd side) /\
  fst side = Ok (positionIndex (snd run)).
Proof.
  cbv zeta.
  destruct (answered chat) as [[]|e] eqn:Ha.
  2:{ left. unfold execute_zapout. rewrite Ha. split; reflexivity. }
  destruct (Ledger.at_index (ledger (disk s)) (positionIndex s))
    as [position|] eqn:Eat.
  2:{ left.
      destruct (execute_zapout_not_entered chat percentage zapOut s)
        as (r & d1 & -> & Hfile & _); [auto|].
      split; [exact Hfile|reflexivity]. }
  destruct (processingShown chat) as [[]|e] eqn:Hp.
  2:{ left.
      destruct (execute_zapout_not_entered chat percentage zapOut s)
        as (r & d1 & -> & Hfile & _); [eauto|].
      split; [exact Hfile|reflexivity]. }
  right.
  unfold execute_zapout, Ledger.execute_zapout. rewrite Ha, Hp.
  destruct s as [d index]. cbn [disk positionIndex] in *.
  unfold Ledger.loadPositions, Ledger.savePositions, Ledger.writeFile,
    on_disk, setIndex.
  unfold bind, lift, gets, try_catch, log, modify, ret.
  cbn [disk positionIndex].
  unfold ledger in Eat.
  destruct (Ledger.positionsFile d) as [positions|] eqn:Ef; cbn;
    rewrite ?Ef; cbn; rewrite Eat; cbn;
    (destruct zapOut as [[]|e]; cbn;
     [|destruct (failureShown chat); cbn; rewrite ?Ef; split; reflexivity]);
    rewrite ?Ef; cbn;
    destruct (percentage =? 100); cbn;
    destruct (Ledger.writeError d); cbn;
    destruct (successShown chat); cbn;
    try destruct (failureShown chat); cbn;
    split; reflexivity.
Qed.

(** X20. The zap-out callback leaves the ledger file and the session's
    index as they are when it does not come to a confirmed transaction:
    when its first answer or the message before the [try] is rejected,
    when the position is not found, and when a step up to the receipt of
    the transaction fails.  And it rejects only with the error of a message
    outside the [try] or of the reply in the [catch] handler: when these go
    out it returns, whatever fails inside the [try]. *)
Theorem execute_zapout_failure chat percentage zapOut s :
  let run := execute_zapout chat percentage zapOut s in
  ((exists e, answered chat = Throw e) \/
   Ledger.at_index (ledger (disk s)) (positionIndex s) = None \/
   (exists e, processingShown chat = Throw e) \/
   (exists e, zapOut = Throw e) ->
   Ledger.positionsFile (disk (snd run)) = Ledger.positionsFile (disk s) /\
   positionIndex (snd run) = positionIndex s) /\
  (forall e,
     fst run = Throw e ->
     answered chat = Throw e \/ notFoundShown chat = Throw e \/
     processingShown chat = Throw e \/ failureShown chat = Throw e) /\
  (answered chat = Ok tt -> notFoundShown chat = Ok tt ->
   processingShown chat = Ok tt -> failureShown chat = Ok tt ->
   fst run = Ok tt).
Proof.
  intros run. subst run.
  assert ((exists e, answered chat = Throw e) \/
          Ledger.at_index (ledger (disk s)) (positionIndex s) = None \/
          (exists e, processingShown chat = Throw e) \/
          exists position,
            answered chat = Ok tt /\
            Ledger.at_index (ledger (disk s)) (positionIndex s) = Some position /\
            processingShown chat = Ok tt) as Hcases.
  { destruct (answered chat) as [[]|e]; [|eauto].
    destruct (Ledger.at_index _ _) as [position|]; [|auto].
    destruct (processingShown chat) as [[]|e]; eauto 8. }
  assert ((exists e, answered chat = Throw e) \/
          Ledger.at_index (ledger (disk s)) (positionIndex s) = None \/
          (exists e, processingShown chat = Throw e) ->
          forall r d1,
            execute_zapout chat percentage zapOut s
            = (r, {| disk := d1; positionIndex := positionIndex s |}) ->
            Ledger.positionsFile d1 = Ledger.positionsFile (disk s) ->
            r = answered chat \/ r = notFoundShown chat \/
            r = processingShown chat ->
            (answered chat = Ok tt -> notFoundShown chat = Ok tt ->
             processingShown chat = Ok tt -> r = Ok tt) ->
            (Ledger.positionsFile
               (disk (snd (execute_zapout chat percentage zapOut s)))
             = Ledger.positionsFile (disk s) /\
             positionIndex (snd (execute_zapout chat percentage zapOut s))
             = positionIndex s) /\
            (forall e,
               fst (execute_zapout chat percentage zapOut s) = Throw e ->
               answered chat = Throw e \/ notFoundShown chat = Throw e \/
               processingShown chat = Throw e \/ failureShown chat = Throw e) /\
            (answered chat = Ok tt -> notFoundShown chat = Ok tt ->
             processingShown chat = Ok tt -> failureShown chat = Ok tt ->
             fst (execute_zapout chat percentage zapOut s) = Ok tt)) as Hout.
  { intros _ r d1 -> Hfile Hr Hthrough. cbn. split; [auto|]. split.
    - intros e ->. destruct Hr as [Hr|[Hr|Hr]]; rewrite <- Hr; auto.
    - intros Ha Hn Hp _. auto. }
  destruct Hcases as [Ha|[Hn|[Hp|(position & Ha & Hat & Hp)]]].
  - destruct (execute_zapout_not_entered chat percentage zapOut s)
      as (r & d1 & Hrun & Hfile & Hr & Hthrough); [auto|].
    destruct (Hout (or_introl Ha) r d1 Hrun Hfile Hr Hthrough) as (H1 & H2 & H3).
    auto.
  - destruct (execute_zapout_not_entered chat percentage zapOut s)
      as (r & d1 & Hrun & Hfile & Hr & Hthrough); [auto|].
    destruct (Hout (or_intror (or_introl Hn)) r d1 Hrun Hfile Hr Hthrough)
      as (H1 & H2 & H3).
    auto.
  - destruct (execute_zapout_not_entered chat percentage zapOut s)
      as (r & d1 & Hrun & Hfile & Hr & Hthrough); [auto|].
    destruct (Hout (or_intror (or_intror Hp)) r d1 Hrun Hfile Hr Hthrough)
      as (H1 & H2 & H3).
    auto.
  - clear Hout.
    destruct (execute_zapout_entered chat percentage zapOut s position Ha Hat Hp)
      as (d1 & Hfile & ->).
    unfold try_catch.
    split; [|split].
    + intros [[e He]|[Hnone|[[e He]|[e ->]]]]; try congruence.
      cbn. split; [exact Hfile|reflexivity].
    + intros e.
      destruct (bind _ _ _) as [[[]|e'] s']; [discriminate|].
      unfold bind, log, modify, lift. cbn. intros ->. auto.
    + intros _ _ _ Hfailure.
      destruct (bind _ _ _) as [[[]|e'] s']; [reflexivity|].
      unfold bind, log, modify, lift. cbn. exact Hfailure.
Qed.

End ZapOutCallback.

Lemma ledger_one_position_per_token_witness :
  (forall now getCachedPairInfo token ethAmount,
     NoDup (Ledger.identity (fun address => address) <$>
              ledger (snd (Ledger.updateAndSavePosition (fun address => address)
                             now getCachedPairInfo token ethAmount
                             tokenA_ledger)))) /\
  (forall percentage zapOut positionIndex,
     NoDup (Ledger.identity (fun address => address) <$>
              ledger (snd (Ledger.execute_zapout percentage zapOut positionIndex
                             tokenA_ledger)))).
Proof.
  apply (ledger_one_position_per_token (fun address => address) tokenA_ledger).
  apply NoDup_singleton.
Defined.

(** The only position of [tokenA_ledger] is exited in full: the index
    stays 0 and the ledger is empty. *)
(** A full exit of the second of two positions: the index moves to the
    first, which is the ledger left. *)
Lemma execute_zapout_index_witness :
  let run := Ledger.execute_zapout 100 (Ok tt) 1 two_token_ledger in
  ledger (snd run) = [tokenA_position] /\
  exists index,
    fst run = Ok index /\ 0 <= index /\
    index < Z.of_nat (length (ledger (snd run))).
Proof.
  cbv zeta. split; [reflexivity|].
  destruct (execute_zapout_index 100 (Ok tt) 1 two_token_ledger tokenB_position
              eq_refl) as (index & Hrun & Hpos & Hlt).
  exists index. split; [exact Hrun|]. split; [exact Hpos|].
  apply Hlt. discriminate.
Defined.

(** A save on a full disk: the ledger that was held is lost with the one
    that was to be saved. *)
Lemma savePositions_loadPositions_witness :
  fst (Ledger.loadPositions
         (snd (Ledger.savePositions [tokenA_position; tokenB_position]
                 (full tokenA_ledger))))
  = Ok [].
Proof.
  exact (proj2 (savePositions_loadPositions [tokenA_position; tokenB_position]
                  (full tokenA_ledger))).
Defined.

(** A transaction that fails for the position held by [tokenA_ledger]. *)
Lemma execute_zapout_failure_witness :
  let run :=
    ZapOut.execute_zapout zapOut_delivered 50 (Throw (Error "insufficient funds"))
      {| ZapOut.disk := tokenA_ledger; ZapOut.positionIndex := 0 |} in
  fst run = Ok tt /\
  Ledger.positionsFile (ZapOut.disk (snd run)) = Some [tokenA_position] /\
  ZapOut.positionIndex (snd run) = 0.
Proof.
  cbv zeta.
  destruct (execute_zapout_failure zapOut_delivered 50
              (Throw (Error "insufficient funds"))
              {| ZapOut.disk := tokenA_ledger; ZapOut.positionIndex := 0 |})
    as (Hsame & _ & Hreturns).
  split; [apply Hreturns; reflexivity|].
  apply Hsame. right. right. right. eauto.
Defined.

(** The amount ['1e-3']: it passes the guard and [parseEther] throws,
    outside the [try]. *)
Lemma executeZapIn_records_confirmed_witness :
  let run :=
    ZapIn.executeZapIn (fun address => address) (default_config true)
      default_settings 0 0 zapIn_delivered node_down
      (Ledger.tokenAddress tokenA_position) (ZapIn.exponent_notation 0.001)
      {| ZapIn.disk := tokenA_ledger; ZapIn.calls := [] |} in
  fst run = Throw NumericFault /\
  ZapIn.asWei (ZapIn.exponent_notation 0.001) = Throw NumericFault.
Proof.
  cbv zeta.
  assert (fst (ZapIn.executeZapIn (fun address => address) (default_config true)
                 default_settings 0 0 zapIn_delivered node_down
                 (Ledger.tokenAddress tokenA_position)
                 (ZapIn.exponent_notation 0.001)
                 {| ZapIn.disk := tokenA_ledger; ZapIn.calls := [] |})
          = Throw NumericFault) as Hrun by (vm_compute; reflexivity).
  split; [exact Hrun|].
  destruct (proj1 (proj2 (executeZapIn_records_confirmed (fun address => address)
              (default_config true) default_settings 0 0 zapIn_delivered
              node_down (Ledger.tokenAddress tokenA_position)
              (ZapIn.exponent_notation 0.001)
              {| ZapIn.disk := tokenA_ledger; ZapIn.calls := [] |}))
            NumericFault Hrun) as [H|[H|[H|H]]];
    [discriminate H|exact H|discriminate H|discriminate H].
Defined.

(** ** Navigation between positions *)

Section Navigation.

(** X22. On a ledger with positions and from an index that is not
    negative, [prev_pos] and [next_pos] lead to an index of the ledger;
    from an index of the ledger they undo each other, and [next_pos] from
    the last position leads to the first. *)
Theorem navigate_in_range direction length index :
  0 < length -> 0 <= index ->
  0 <= navigate direction length index < length /\
  (index < length ->
   navigate prev_pos length (navigate next_pos length index) = index /\
   navigate next_pos length (navigate prev_pos length index) = index /\
   navigate next_pos length (show_position length) = 0).
Proof.
  intros Hlen Hidx. unfold navigate, show_position.
  destruct (Z.eqb_spec length 0) as [->|_]; [lia|].
  assert (forall x, 0 <= x -> Z.rem x length = x mod length) as Hrem
    by (intros x Hx; apply Z.rem_mod_nonneg; lia).
  split.
  - destruct direction; rewrite Hrem by lia; apply Z.mod_pos_bound; lia.
  - intros Hin.
    rewrite (Hrem (index + 1)), (Hrem (index - 1 + length)),
      (Hrem (length - 1 + 1)) by lia.
    assert (0 <= (index + 1) mod length < length) by (apply Z.mod_pos_bound; lia).
    assert (0 <= (index - 1 + length) mod length < length)
      by (apply Z.mod_pos_bound; lia).
    rewrite !Hrem by lia.
    repeat split.
    + destruct (Z.eq_dec (index + 1) length) as [E|Hne].
      * rewrite E, Z.mod_same by lia.
        replace (0 - 1 + length) with (length - 1) by lia.
        rewrite Z.mod_small by lia. lia.
      * rewrite (Z.mod_small (index + 1)) by lia.
        replace (index + 1 - 1 + length) with (index + 1 * length) by lia.
        rewrite Z.mod_add by lia. apply Z.mod_small. lia.
    + destruct (Z.eq_dec index 0) as [->|Hne].
      * replace (0 - 1 + length) with (length - 1) by lia.
        rewrite (Z.mod_small (length - 1)) by lia.
        replace (length - 1 + 1) with length by lia. apply Z.mod_same. lia.
      * replace (index - 1 + length) with (index - 1 + 1 * length) by lia.
        rewrite Z.mod_add, (Z.mod_small (index - 1)) by lia.
        replace (index - 1 + 1) with index by lia. apply Z.mod_small. lia.
    + replace (length - 1 + 1) with length by lia. apply Z.mod_same. lia.
Qed.

Lemma navigate_in_range_witness :
  0 <= navigate prev_pos 3 0 < 3 /\
  (0 < 3 ->
   navigate prev_pos 3 (navigate next_pos 3 0) = 0 /\
   navigate next_pos 3 (navigate prev_pos 3 0) = 0 /\
   navigate next_pos 3 (show_position 3) = 0).
Proof. apply (navigate_in_range prev_pos 3 0); lia. Defined.

End Navigation.

(** ** Watchers of the position display *)

Section Watchers.

Import Watcher.

Lemma stopWatcher_gone chatId t :
  activeWatchers (stopWatcher chatId t) !! chatId = None.
Proof.
  unfold stopWatcher. destruct (activeWatchers t !! chatId) eqn:E; cbn.
  - apply lookup_delete_eq.
  - assumption.
Qed.

Lemma stopWatcher_absent chatId t :
  activeWatchers t !! chatId = None -> stopWatcher chatId t = t.
Proof. intros E. unfold stopWatcher. now rewrite E. Qed.

Lemma stopWatcher_others chatId other t :
  other <> chatId ->
  activeWatchers (stopWatcher chatId t) !! other = activeWatchers t !! other.
Proof.
  intros Hne. unfold stopWatcher.
  destruct (activeWatchers t !! chatId) eqn:E; cbn; [|reflexivity].
  apply lookup_delete_ne. congruence.
Qed.

Lemma update_after_stop chatId inConversation positionGone messageGone t :
  update chatId inConversation positionGone messageGone (stopWatcher chatId t)
  = stopWatcher chatId t.
Proof.
  unfold update. destruct (_ || _); [|reflexivity].
  apply stopWatcher_absent, stopWatcher_gone.
Qed.

Lemma stopWatcher_consistent chatId t :
  consistent t -> consistent (stopWatcher chatId t).
Proof.
  intros (Hrun & Hinj & Hnext). unfold stopWatcher.
  destruct (activeWatchers t !! chatId) as [handle|] eqn:E;
    [|exact (conj Hrun (conj Hinj Hnext))].
  split; [split|split]; cbn.
  - intros Hin. apply elem_of_difference in Hin as [Hin Hne].
    apply Hrun in Hin as [chat Hchat]. exists chat.
    rewrite lookup_delete_ne; [assumption|].
    intros <-. rewrite E in Hchat. injection Hchat as <-. set_solver.
  - intros [chat Hchat].
    destruct (decide (chat = chatId)) as [->|Hne].
    + rewrite lookup_delete_eq in Hchat. discriminate.
    + rewrite lookup_delete_ne in Hchat by congruence.
      apply elem_of_difference. split; [apply Hrun; eauto|].
      intros Hin. apply elem_of_singleton in Hin as ->.
      apply Hne. eapply Hinj; eassumption.
  - intros chat1 chat2 h H1 H2.
    destruct (decide (chat1 = chatId)) as [->|Hne1];
      [rewrite lookup_delete_eq in H1; discriminate|].
    destruct (decide (chat2 = chatId)) as [->|Hne2];
      [rewrite lookup_delete_eq in H2; discriminate|].
    rewrite lookup_delete_ne in H1, H2 by congruence.
    eapply Hinj; eassumption.
  - intros h Hin. apply elem_of_difference in Hin as [Hin _]. now apply Hnext.
Qed.

Lemma startWatcher_consistent chatId t :
  consistent t -> activeWatchers t !! chatId = None ->
  consistent (startWatcher chatId t).
Proof.
  intros (Hrun & Hinj & Hnext) Hfree. unfold startWatcher, setInterval. cbn.
  assert (forall chat, activeWatchers t !! chat <> Some (nextHandle t)) as Hfresh.
  { intros chat Hchat.
    assert (nextHandle t ∈ running t) as Hin by (apply Hrun; eauto).
    apply Hnext in Hin. lia. }
  split; [split|split]; cbn.
  - intros Hin. apply elem_of_union in Hin as [Hin|Hin].
    + apply elem_of_singleton in Hin as ->. exists chatId. apply lookup_insert_eq.
    + apply Hrun in Hin as [chat Hchat]. exists chat.
      rewrite lookup_insert_ne; [assumption|]. intros <-. congruence.
  - intros [chat Hchat]. apply elem_of_union.
    destruct (decide (chat = chatId)) as [->|Hne].
    + rewrite lookup_insert_eq in Hchat. injection Hchat as <-.
      left. now apply elem_of_singleton.
    + rewrite lookup_insert_ne in Hchat by congruence. right. apply Hrun. eauto.
  - intros chat1 chat2 h H1 H2.
    destruct (decide (chat1 = chatId)) as [->|Hne1];
      destruct (decide (chat2 = chatId)) as [->|Hne2]; try reflexivity.
    + rewrite lookup_insert_eq in H1. injection H1 as <-.
      rewrite lookup_insert_ne in H2 by congruence. now destruct (Hfresh chat2).
    + rewrite lookup_insert_eq in H2. injection H2 as <-.
      rewrite lookup_insert_ne in H1 by congruence. now destruct (Hfresh chat1).
    + rewrite lookup_insert_ne in H1, H2 by congruence. eapply Hinj; eassumption.
  - intros h Hin. apply elem_of_union in Hin as [Hin|Hin].
    + apply elem_of_singleton in Hin as ->. lia.
    + apply Hnext in Hin. lia.
Qed.

Lemma no_watchers_consistent :
  consistent {| activeWatchers := ∅; running := ∅; nextHandle := 0 |}.
Proof.
  split; [split|split]; cbn.
  - intros Hin. set_solver.
  - intros [chat Hchat]. rewrite lookup_empty in Hchat. discriminate.
  - intros chat1 chat2 h H1. rewrite lookup_empty in H1. discriminate.
  - intros h Hin. set_solver.
Qed.

(** X23. No interval is left running unowned: if every running interval
    is the watcher of exactly one chat, this is still so after
    [stopWatcher], after [displayPosition] whichever way it goes, and after
    a run of the timer's [update], for the same or another chat. *)
Theorem watchers_consistent chatId t :
  consistent t ->
  consistent (stopWatcher chatId t) /\
  (forall found shown inConversation positionGone messageGone,
     consistent (displayPosition chatId found shown
                   inConversation positionGone messageGone t)) /\
  (forall inConversation positionGone messageGone,
     consistent (update chatId inConversation positionGone messageGone t)).
Proof.
  intros Ht. split; [|split].
  - now apply stopWatcher_consistent.
  - intros found shown inConversation positionGone messageGone.
    unfold displayPosition.
    pose proof (stopWatcher_consistent chatId t Ht) as Hstop.
    destruct found, shown; cbn [negb]; cbv zeta; try assumption.
    rewrite update_after_stop.
    apply startWatcher_consistent; [assumption|apply stopWatcher_gone].
  - intros inConversation positionGone messageGone. unfold update.
    destruct (_ || _); [now apply stopWatcher_consistent|assumption].
Qed.

(** X24. Showing a position replaces the watcher of the chat: afterwards
    the chat has a watcher whose interval is running and is a new one, the
    interval of its former watcher is cleared, and the watchers of the
    other chats are the same.  What the first [update] finds makes no
    difference. *)
Theorem displayPosition_replaces chatId inConversation positionGone messageGone t :
  consistent t ->
  let t' := displayPosition chatId true true
              inConversation positionGone messageGone t in
  exists handle,
    activeWatchers t' !! chatId = Some handle /\
    handle ∈ running t' /\
    (handle ∉ running t) /\
    (forall former, activeWatchers t !! chatId = Some former ->
                    (former ∉ running t')) /\
    (forall other, other <> chatId ->
                   activeWatchers t' !! other = activeWatchers t !! other).
Proof.
  intros (Hrun & Hinj & Hnext) t'. subst t'.
  unfold displayPosition. cbn [negb]. cbv zeta. rewrite update_after_stop.
  unfold startWatcher, setInterval. cbn.
  assert (nextHandle (stopWatcher chatId t) = nextHandle t) as Hsame
    by (unfold stopWatcher; destruct (activeWatchers t !! chatId); reflexivity).
  exists (nextHandle (stopWatcher chatId t)).
  split; [|split; [|split; [|split]]].
  - apply lookup_insert_eq.
  - apply elem_of_union. left. now apply elem_of_singleton.
  - rewrite Hsame. intros Hin. apply Hnext in Hin. lia.
  - intros former Hformer Hin.
    assert (former ∈ running t) as Hwas by (apply Hrun; eauto).
    apply Hnext in Hwas.
    apply elem_of_union in Hin as [Hin|Hin].
    + apply elem_of_singleton in Hin. rewrite Hsame in Hin. lia.
    + unfold stopWatcher in Hin. rewrite Hformer in Hin. cbn in Hin.
      apply elem_of_difference in Hin as [_ Hin].
      apply Hin. now apply elem_of_singleton.
  - intros other Hne. rewrite lookup_insert_ne by congruence.
    now apply stopWatcher_others.
Qed.

(** X25. A timer's [update] that finds its reason to stop leaves the chat
    without a watcher and the other chats as they were; one that finds none
    changes nothing; and [stopWatcher] for a chat without a watcher changes
    nothing, so that stopping twice is stopping once. *)
Theorem update_stops_own_watcher chatId inConversation positionGone messageGone t :
  (inConversation || positionGone || messageGone = true ->
   let t' := update chatId inConversation positionGone messageGone t in
   activeWatchers t' !! chatId = None /\
   (forall other, other <> chatId ->
                  activeWatchers t' !! other = activeWatchers t !! other)) /\
  (inConversation || positionGone || messageGone = false ->
   update chatId inConversation positionGone messageGone t = t) /\
  stopWatcher chatId (stopWatcher chatId t) = stopWatcher chatId t.
Proof.
  split; [|split].
  - intros Hstop. cbv zeta. unfold update. rewrite Hstop. split.
    + apply stopWatcher_gone.
    + intros other Hne. now apply stopWatcher_others.
  - intros Hgo. unfold update. now rewrite Hgo.
  - apply stopWatcher_absent, stopWatcher_gone.
Qed.

End Watchers.

Lemma watchers_consistent_witness :
  let none := {| Watcher.activeWatchers := ∅; Watcher.running := ∅;
                 Watcher.nextHandle := 0 |} in
  Watcher.consistent none /\
  Watcher.consistent (Watcher.stopWatcher 42 none) /\
  (forall found shown inConversation positionGone messageGone,
     Watcher.consistent
       (Watcher.displayPosition 42 found shown
          inConversation positionGone messageGone none)) /\
  (forall inConversation positionGone messageGone,
     Watcher.consistent
       (Watcher.update 42 inConversation positionGone messageGone none)).
Proof.
  cbv zeta. split; [exact no_watchers_consistent|].
  exact (watchers_consistent 42 _ no_watchers_consistent).
Defined.

Lemma displayPosition_replaces_witness :
  let none := {| Watcher.activeWatchers := ∅; Watcher.running := ∅;
                 Watcher.nextHandle := 0 |} in
  Watcher.consistent none /\
  exists handle,
    Watcher.activeWatchers
      (Watcher.displayPosition 42 true true false false false none) !! 42
    = Some handle.
Proof.
  cbv zeta. split; [exact no_watchers_consistent|].
  destruct (displayPosition_replaces 42 false false false _ no_watchers_consistent)
    as (handle & Hset & _).
  exists handle. exact Hset.
Defined.

(** ** Pair data *)

Section PairData.

Import Chain.

Variable getAddress : string -> string.
Variable WETH_ADDRESS : string.

Lemma floor_quotient a b :
  0 <= a -> 0 < b ->
  BigInt.div a b = Ok (a / b) /\ 0 <= a / b /\
  (a / b) * b <= a < (a / b + 1) * b.
Proof.
  intros Ha Hb. split; [now apply BigInt_div_pos|]. split.
  - apply Z.div_pos; lia.
  - pose proof (Z.mul_div_le a b Hb). pose proof (Z.mul_succ_div_gt a b Hb). lia.
Qed.

(** X26. [fetchPairInfo] on a pair that exists, with reserves, supply and
    decimals that are not negative: it returns, never dividing by zero.
    When either reserve is empty it reports both reserves, the price and
    the market cap as 0, also when the other reserve is not empty.
    Otherwise it reports the two reserves as (WETH, token), whichever slot
    WETH has, and price and market cap are [formatEther] of the floors of
    [reserveWETH * 10^decimals / reserveToken] and of
    [reserveWETH * totalSupply / reserveToken].  And when the factory
    answers the zero address it throws, whatever the reads would give. *)
Theorem fetchPairInfo_outcome address reads :
  (forall anyReads,
     fetchPairInfo getAddress WETH_ADDRESS (Ok ZeroAddress) anyReads
     = Throw (Error "Pair does not exist for this token.")) /\
  (address <> ZeroAddress ->
   0 <= fst (reserves reads) -> 0 <= snd (reserves reads) ->
   0 <= tokenTotalSupply reads -> 0 <= tokenDecimals reads ->
   exists info,
     fetchPairInfo getAddress WETH_ADDRESS (Ok address) (Ok reads) = Ok info /\
     pairAddress info = address /\
     let '(inWETH, inToken) := orient getAddress WETH_ADDRESS reads in
     ((inWETH = 0 \/ inToken = 0) /\
      reserveWETH info = 0 /\ reserveToken info = 0 /\
      price info = 0%Q /\ marketCap info = 0%Q
      \/
      0 < inWETH /\ 0 < inToken /\
      reserveWETH info = inWETH /\ reserveToken info = inToken /\
      exists priceInWei marketCapInWei,
        price info = formatEther priceInWei /\
        marketCap info = formatEther marketCapInWei /\
        priceInWei * inToken <= inWETH * 10 ^ tokenDecimals reads
          < (priceInWei + 1) * inToken /\
        marketCapInWei * inToken <= inWETH * tokenTotalSupply reads
          < (marketCapInWei + 1) * inToken)).
Proof.
  split; [reflexivity|].
  intros Hpair H0 H1 Hsupply Hdecimals.
  unfold fetchPairInfo.
  destruct (String.eqb_spec address ZeroAddress) as [->|_]; [contradiction|].
  assert (0 <= fst (orient getAddress WETH_ADDRESS reads) /\
          0 <= snd (orient getAddress WETH_ADDRESS reads)) as [HW HT]
    by (unfold orient; destruct (String.eqb _ _); cbn; lia).
  destruct (orient getAddress WETH_ADDRESS reads) as [inWETH inToken].
  cbn [fst snd] in HW, HT.
  destruct (Z.eqb_spec inToken 0) as [->|HnT]; cbn [orb].
  { eexists. split; [reflexivity|]. split; [reflexivity|]. left. cbn. tauto. }
  destruct (Z.eqb_spec inWETH 0) as [->|HnW].
  { eexists. split; [reflexivity|]. split; [reflexivity|]. left. cbn. tauto. }
  destruct (Z.ltb_spec (tokenDecimals reads) 0) as [Hneg|_]; [lia|].
  assert (0 < 10 ^ tokenDecimals reads) as Hpow by (apply Z.pow_pos_nonneg; lia).
  destruct (floor_quotient (inWETH * 10 ^ tokenDecimals reads) inToken)
    as (-> & _ & Hprice); [nia|lia|].
  destruct (floor_quotient (inWETH * tokenTotalSupply reads) inToken)
    as (-> & _ & Hcap); [nia|lia|].
  eexists. split; [reflexivity|]. split; [reflexivity|]. right. cbn.
  repeat (split; [lia|]). do 2 eexists.
  split; [reflexivity|]. split; [reflexivity|]. split; assumption.
Qed.

End PairData.

(** A pair with WETH in the second slot: 50 WETH against 1000 tokens of 18
    decimals and a supply of 10^6 tokens. *)
Lemma fetchPairInfo_outcome_witness :
  let reads := {| Chain.reserves := (1000 * 10 ^ 18, 50 * 10 ^ 18);
                  Chain.token0 := "0xtoken";
                  Chain.tokenTotalSupply := 10 ^ 6 * 10 ^ 18;
                  Chain.tokenDecimals := 18 |} in
  "0xpair" <> Chain.ZeroAddress /\
  exists info,
    Chain.fetchPairInfo (fun a => a) "0xweth" (Ok "0xpair") (Ok reads) = Ok info /\
    Chain.reserveWETH info = 50 * 10 ^ 18 /\
    (Chain.marketCap info == 50000)%Q.
Proof.
  cbv zeta. split; [discriminate|].
  destruct (proj2 (fetchPairInfo_outcome (fun a => a) "0xweth" "0xpair"
              {| Chain.reserves := (1000 * 10 ^ 18, 50 * 10 ^ 18);
                 Chain.token0 := "0xtoken";
                 Chain.tokenTotalSupply := 10 ^ 6 * 10 ^ 18;
                 Chain.tokenDecimals := 18 |}))
    as (info & Hinfo & _); [discriminate|cbn; lia..|].
  exists info. split; [exact Hinfo|].
  vm_compute in Hinfo. injection Hinfo as <-. split; reflexivity.
Defined.

(** ** Figures of the position message *)

Section PositionFigures.

Import Display.

Lemma ratio_times (x i : Q) : (0 < i)%Q -> ((x / i) * i == x)%Q.
Proof. intros Hi. field. intros Hz. rewrite Hz in Hi. now apply Qlt_irrefl in Hi. Qed.

Lemma profit_ratio (initial current : Q) :
  (0 < initial)%Q ->
  ((0 <= current -> -1 <= (current - initial) / initial) /\
   (0 <= (current - initial) / initial <-> initial <= current))%Q.
Proof.
  intros Hi. pose proof (ratio_times (current - initial) initial Hi) as Hr.
  remember ((current - initial) / initial)%Q as r eqn:Er. clear Er.
  split; [intros Hc|split; intros H].
  - apply Qnot_lt_le. intros Hlt.
    assert (r * initial < -1 * initial)%Q as Hm by (apply Qmult_lt_compat_r; assumption).
    rewrite Hr in Hm. lra.
  - assert (0 <= r * initial)%Q as Hm by (apply Qmult_le_0_compat; lra).
    rewrite Hr in Hm. lra.
  - apply Qnot_lt_le. intros Hlt.
    assert (r * initial < 0 * initial)%Q as Hm by (apply Qmult_lt_compat_r; assumption).
    rewrite Hr in Hm. lra.
Qed.

(** X27. The figures of the position message.  On a pair without LP supply
    [generatePositionMessage] throws, before any division.  Otherwise, for a
    WETH reserve that is not negative and an LP balance between 0 and the
    supply, it computes figures: the value is at most twice the WETH
    reserve, the pool share is between 0 and 100 percent, the profit is 0
    for a position stored without a market cap (no division by zero), and
    for one stored with a market cap the profit is at least -100 percent
    and is shown as a gain exactly when the market cap has not fallen. *)
Theorem position_figures reserveWETH lpBalance pairTotalSupply initial current :
  figures reserveWETH lpBalance 0 initial current
  = Throw (Error "Pool has no liquidity.") /\
  (0 <= reserveWETH -> 0 <= lpBalance <= pairTotalSupply ->
   0 < pairTotalSupply -> (0 <= current)%Q ->
   exists f,
     figures reserveWETH lpBalance pairTotalSupply initial current = Ok f /\
     0 <= userLpValueWei f <= 2 * reserveWETH /\
     (0 <= userSharePercent f <= 100)%Q /\
     ((initial <= 0)%Q -> mcapProfitPercent f = 0%Q) /\
     ((0 < initial)%Q ->
      (-100 <= mcapProfitPercent f)%Q /\
      (shownAsGain f = true <-> (initial <= current)%Q))).
Proof.
  split; [reflexivity|].
  intros Hr Hlp Hsupply Hcurrent. unfold figures.
  destruct (Z.eqb_spec pairTotalSupply 0) as [->|_]; [lia|].
  rewrite !BigInt_div_pos by nia.
  eexists. split; [reflexivity|]. cbn.
  assert (0 <= lpBalance * 10000 / pairTotalSupply <= 10000) as Hshare.
  { split; [apply Z.div_pos; lia|apply Z.div_le_upper_bound; lia]. }
  split; [|split; [|split]].
  - split; [apply Z.div_pos; nia|apply Z.div_le_upper_bound; nia].
  - unfold BigInt.toNumber.
    assert (0 <= inject_Z (lpBalance * 10000 / pairTotalSupply) <= 10000)%Q as Hq.
    { change 0%Q with (inject_Z 0). change 10000%Q with (inject_Z 10000).
      rewrite <- !Zle_Qle. exact Hshare. }
    remember (inject_Z (lpBalance * 10000 / pairTotalSupply)) as share.
    split.
    + apply Qle_shift_div_l; lra.
    + apply Qle_shift_div_r; lra.
  - intros Hnone. apply Qltb_ge in Hnone. now rewrite Hnone.
  - intros Hsome. pose proof Hsome as Hb. apply Qltb_lt in Hb.
    unfold shownAsGain. cbn. rewrite Hb.
    destruct (profit_ratio initial current Hsome) as [Hlow Hsign].
    specialize (Hlow Hcurrent).
    remember ((current - initial) / initial)%Q as r eqn:Er. clear Er.
    split; [lra|].
    rewrite Qle_bool_iff, <- Hsign. split; intros H; lra.
Qed.

End PositionFigures.

(** A tenth of a pool with 40 WETH, entered at a market cap of 200 that is
    now 250. *)
Lemma position_figures_witness :
  exists f,
    Display.figures (40 * 10 ^ 18) 10 100 200 250 = Ok f /\
    Display.userLpValueWei f = 8 * 10 ^ 18 /\
    (Display.userSharePercent f == 10)%Q /\
    (Display.mcapProfitPercent f == 25)%Q /\
    Display.shownAsGain f = true.
Proof.
  destruct (proj2 (position_figures (40 * 10 ^ 18) 10 100 200 250))
    as (f & Hf & _); [lia|lia|lia|discriminate|].
  exists f. split; [exact Hf|].
  vm_compute in Hf. injection Hf as <-. repeat split.
Defined.

(** The timer of chat 42 runs when a conversation has started there. *)
Lemma update_stops_own_watcher_witness :
  let t := Watcher.displayPosition 42 true true false false false
             {| Watcher.activeWatchers := ∅; Watcher.running := ∅;
                Watcher.nextHandle := 0 |} in
  Watcher.activeWatchers t !! 42 = Some 0%nat /\
  Watcher.activeWatchers (Watcher.update 42 true false false t) !! 42 = None.
Proof.
  cbv zeta. split; [reflexivity|].
  apply (proj1 (update_stops_own_watcher 42 true false false _)). reflexivity.
Defined.
